(** * Aho-Corasick multi-pattern matcher (src/Aho-Corasick.h)

    A shallow embedding of the class [Aho_Corasick] and a verification of
    its trie construction, node numbering, failure/output links, text
    scanner and destructor.

    Memory model.  Every [Node] lives in an arena ([list Node]); a
    [Node*] is an [option nat] ([None] is [nullptr], [Some a] the address
    of cell [a]).  [new Node{}] appends a default-initialised cell and
    returns its address.  Dereferencing a null or dangling pointer is
    undefined behaviour in C++; the embedding gets stuck there (the
    enclosing function returns [None]).  Loops whose termination depends
    on the shape of the pointer graph take a fuel argument; running out of
    fuel is reported as [None] as well, and the theorems below show that
    neither happens on an automaton produced by the constructor.

    [char] is [ascii], [std::string] is [list ascii], [int] is [Z].  The
    loop counter [int i] of [findPatterns] stays below [text.size()], so
    it does not wrap for any text the loop is defined on.  The lines
    printed by [findPatterns] are modelled as the list of
    (pattern, value of [i] at the print) pairs, in printing order.  The
    counter [int id] of [assignIds] is read as an integer that does not
    wrap: it counts the cells of the arena.  [delete] is modelled by the
    list of the addresses deleted so far; a deleted cell counts as
    dangling. *)

From Stdlib Require Import ZArith Ascii String.
From stdpp Require Import base option list gmap strings sorting.

Module Aho_Corasick.

Local Open Scope Z_scope.
Local Open Scope nat_scope.

(** * The program *)

(** ** Data model *)

(** [struct Node], field by field. *)
Record Node := mkNode {
  children : gmap ascii (option nat);
  parent : option nat;
  failureLink : option nat;
  outputLink : option nat;
  isWord : bool;
  parentChar : ascii;
  id : Z;
  pattern : list ascii
}.

(** [Node{}]: the default member initialisers. *)
Definition new_Node : Node :=
  mkNode ∅ None None None false "*"%char (-1)%Z [].

Definition set_children (v : gmap ascii (option nat)) (n : Node) : Node :=
  mkNode v (parent n) (failureLink n) (outputLink n) (isWord n)
         (parentChar n) (id n) (pattern n).
Definition set_parent (v : option nat) (n : Node) : Node :=
  mkNode (children n) v (failureLink n) (outputLink n) (isWord n)
         (parentChar n) (id n) (pattern n).
Definition set_failureLink (v : option nat) (n : Node) : Node :=
  mkNode (children n) (parent n) v (outputLink n) (isWord n)
         (parentChar n) (id n) (pattern n).
Definition set_outputLink (v : option nat) (n : Node) : Node :=
  mkNode (children n) (parent n) (failureLink n) v (isWord n)
         (parentChar n) (id n) (pattern n).
Definition set_isWord (v : bool) (n : Node) : Node :=
  mkNode (children n) (parent n) (failureLink n) (outputLink n) v
         (parentChar n) (id n) (pattern n).
Definition set_parentChar (v : ascii) (n : Node) : Node :=
  mkNode (children n) (parent n) (failureLink n) (outputLink n) (isWord n)
         v (id n) (pattern n).
Definition set_id (v : Z) (n : Node) : Node :=
  mkNode (children n) (parent n) (failureLink n) (outputLink n) (isWord n)
         (parentChar n) v (pattern n).
Definition set_pattern (v : list ascii) (n : Node) : Node :=
  mkNode (children n) (parent n) (failureLink n) (outputLink n) (isWord n)
         (parentChar n) (id n) v.

(** [nullptr] of type [Node*]. *)
Definition nullptr : option nat := None.

Abbreviation heap := (list Node) (only parsing).

(** The member [root]: the constructor's [new Node{}] is the first
    allocation, so the root sits at address 0. *)
Definition root : nat := 0.

(** [new Node{}] *)
Definition alloc (h : heap) : heap * nat := (h ++ [new_Node], length h).

(** A store through a non-null pointer, [a->field = v]. *)
Definition modify (h : heap) (a : nat) (f : Node → Node) : option heap :=
  nd ← h !! a; Some (<[a := f nd]> h).

(** [children.contains(c)] *)
Definition contains (m : gmap ascii (option nat)) (c : ascii) : bool :=
  bool_decide (is_Some (m !! c)).

(** [node->children[c]] read as an rvalue: [operator[]] of
    [std::unordered_map] inserts a value-initialised (null) pointer under
    a missing key, so the call returns the heap as well. *)
Definition children_at (h : heap) (node : nat) (c : ascii)
  : option (heap * option nat) :=
  nd ← h !! node;
  match children nd !! c with
  | Some p => Some (h, p)
  | None => Some (<[node := set_children (<[c := nullptr]> (children nd)) nd]> h, nullptr)
  end.

(** ** Trie construction *)

(** The [for (char c : s)] loop of [insert], from the node [node]; it
    returns the node the loop ends on. *)
Fixpoint insert_loop (s : list ascii) (node : nat) (h : heap)
  : option (nat * heap) :=
  match s with
  | [] => Some (node, h)
  | c :: s' =>
    nd ← h !! node;
    (* if (!node->children.contains(c)) node->children[c] = new Node{}; *)
    h1 ← (if contains (children nd) c then Some h
          else let '(h', a) := alloc h in
               modify h' node (λ n, set_children (<[c := Some a]> (children n)) n));
    (* node->children[c]->parent = node; *)
    '(h2, q2) ← children_at h1 node c; a2 ← q2;
    h3 ← modify h2 a2 (set_parent (Some node));
    (* node->children[c]->parentChar = c; *)
    '(h4, q4) ← children_at h3 node c; a4 ← q4;
    h5 ← modify h4 a4 (set_parentChar c);
    (* node = node->children[c]; *)
    '(h6, q6) ← children_at h5 node c; a6 ← q6;
    insert_loop s' a6 h6
  end.

(** [insert(s)]: walk or create the path of [s] from the root, then mark
    its last node.  There is no test for an empty [s]. *)
Definition insert (s : list ascii) (h : heap) : option heap :=
  '(node, h1) ← insert_loop s root h;
  (* node->isWord = true; node->pattern = s; *)
  h2 ← modify h1 node (set_isWord true);
  modify h2 node (set_pattern s).

(** ** Level-order traversal

    [assignIds] and [fillFailureLinks] are the same queue loop around a
    different visit of the popped node; [level] is the inner
    [while (size--)] loop, [levels] the outer [while (!q.empty())].  The
    queue holds [Node*]; the children of the popped node are pushed in the
    iteration order of its map.  [levels] is called with as much fuel as
    the arena has cells, one unit per level. *)
Section traversal.
Context {St : Type} (visit : nat → St → heap → option (St * heap)).

Fixpoint level (size : nat) (q : list (option nat)) (st : St) (h : heap)
  : option (list (option nat) * St * heap) :=
  match size with
  | 0 => Some (q, st, h)
  | S size' =>
    match q with
    | [] => None
    | p :: q' =>
      node ← p;
      '(st', h') ← visit node st h;
      nd ← h' !! node;
      level size' (q' ++ (map_to_list (children nd)).*2) st' h'
    end
  end.

Fixpoint levels (fuel : nat) (q : list (option nat)) (st : St) (h : heap)
  : option (St * heap) :=
  match q with
  | [] => Some (st, h)
  | _ :: _ =>
    match fuel with
    | 0 => None
    | S fuel' =>
      '(q', st', h') ← level (length q) q st h;
      levels fuel' q' st' h'
    end
  end.
End traversal.

(** [node->id = id++;] *)
Definition assign_id (node : nat) (next : Z) (h : heap) : option (Z * heap) :=
  h' ← modify h node (set_id next); Some ((next + 1)%Z, h').

Definition assignIds (h : heap) : option heap :=
  snd <$> levels assign_id (length h) [Some root] 0%Z h.

(** The [for (const std::string& word : words)] loop of [buildTrieTree]. *)
Definition insert_all (words : list (list ascii)) (h : heap) : option heap :=
  foldl (λ acc w, acc ≫= insert w) (Some h) words.

Definition buildTrieTree (words : list (list ascii)) (h : heap) : option heap :=
  h' ← insert_all words h;
  assignIds h'.

(** ** Failure and output links *)

(** The [while (failureLink)] loop of [connectFailureLink]; [f] is the
    local variable [failureLink], and one unit of fuel pays for one
    [failureLink = failureLink->failureLink]. *)
Fixpoint connect_loop (fuel : nat) (node : nat) (f : option nat) (h : heap)
  : option heap :=
  match f with
  | None => Some h
  | Some fa =>
    fn ← h !! fa;
    nd ← h !! node;
    if contains (children fn) (parentChar nd) then
      (* node->failureLink = failureLink->children[node->parentChar]; *)
      '(h1, q) ← children_at h fa (parentChar nd);
      h2 ← modify h1 node (set_failureLink q);
      (* if (node->failureLink->isWord == true) ... else ...; break; *)
      nd2 ← h2 !! node;
      t ← failureLink nd2;
      tn ← h2 !! t;
      if isWord tn then modify h2 node (set_outputLink (failureLink nd2))
      else modify h2 node (set_outputLink (outputLink tn))
    else
      match fuel with
      | 0 => None
      | S fuel' => connect_loop fuel' node (failureLink fn) h
      end
  end.

Definition connectFailureLink (node : nat) (h : heap) : option heap :=
  nd ← h !! node;
  match parent nd with
  | None => Some h                       (* if (!node->parent) return; *)
  | Some p =>
    (* node->failureLink = root; *)
    h1 ← modify h node (set_failureLink (Some root));
    (* if (node->parent == root) return; *)
    if decide (Some p = Some root) then Some h1
    else
      (* Node* failureLink{ node->parent->failureLink }; *)
      pn ← h1 !! p;
      connect_loop (length h1) node (failureLink pn) h1
  end.

Definition fillFailureLinks (h : heap) : option heap :=
  snd <$> levels (λ node (_ : unit) h, h' ← connectFailureLink node h; Some ((), h'))
                 (length h) [Some root] () h.

(** The constructor: [root = new Node{}; buildTrieTree();
    fillFailureLinks();].  The member [text] is only read by
    [findPatterns] and is passed to it instead. *)
Definition Aho_Corasick (listOfWords : list (list ascii)) : option heap :=
  let '(h0, _) := alloc [] in
  h1 ← buildTrieTree listOfWords h0;
  fillFailureLinks h1.

(** ** Scanning *)

(** The [while (node->failureLink && !node->children.contains(text[i]))]
    loop of [findPatterns]; one unit of fuel pays for one
    [node = node->failureLink]. *)
Fixpoint fail_walk (fuel : nat) (h : heap) (c : ascii) (node : nat)
  : option nat :=
  nd ← h !! node;
  match failureLink nd with
  | None => Some node
  | Some f =>
    if contains (children nd) c then Some node
    else match fuel with
         | 0 => None
         | S fuel' => fail_walk fuel' h c f
         end
  end.

(** The [while (curr->outputLink)] loop. *)
Fixpoint output_walk (fuel : nat) (h : heap) (i : Z) (curr : nat)
  : option (list (list ascii * Z)) :=
  cn ← h !! curr;
  match outputLink cn with
  | None => Some []
  | Some o =>
    match fuel with
    | 0 => None
    | S fuel' =>
      on ← h !! o;
      rest ← output_walk fuel' h i o;
      Some ((pattern on, i) :: rest)
    end
  end.

(** The reporting tail of the loop body, reached with the new [node]. *)
Definition report (h : heap) (i : Z) (node : nat)
  : option (list (list ascii * Z)) :=
  nd ← h !! node;
  rest ← output_walk (length h) h i node;
  Some ((if isWord nd then [(pattern nd, i)] else []) ++ rest).

(** One iteration of the [for] loop of [findPatterns] on the symbol
    [c = text[i]]: the heap, the new [node] and the lines printed. *)
Definition consume (h : heap) (c : ascii) (i : Z) (node : nat)
  : option (heap * nat * list (list ascii * Z)) :=
  nd ← h !! node;
  if contains (children nd) c then
    (* node = node->children[text[i]]; *)
    '(h1, q) ← children_at h node c; n1 ← q;
    out ← report h1 i n1;
    Some (h1, n1, out)
  else
    node' ← fail_walk (length h) h c node;
    nd' ← h !! node';
    (* if (!node->children.contains(text[i])) continue; *)
    if negb (contains (children nd') c) then Some (h, node', [])
    else
      '(h1, q) ← children_at h node' c; n1 ← q;
      out ← report h1 i n1;
      Some (h1, n1, out).

(** The [for] loop from position [i] on, over the rest of the text. *)
Fixpoint scan_loop (text : list ascii) (i : Z) (node : nat) (h : heap)
  : option (list (list ascii * Z) * heap) :=
  match text with
  | [] => Some ([], h)
  | c :: rest =>
    '(h1, node', out) ← consume h c i node;
    '(outs, h2) ← scan_loop rest (i + 1)%Z node' h1;
    Some (out ++ outs, h2)
  end.

(** [findPatterns()], with the member [text] as an argument: what it
    prints and the arena it leaves. *)
Definition findPatterns (text : list ascii) (h : heap)
  : option (list (list ascii * Z) * heap) :=
  scan_loop text 0%Z root h.

(** ** Destruction *)

(** The [while (!q.empty())] loop of [clear].  [freed] lists the cells
    given to [delete], the last one first.  Reading or deleting a cell
    that is already deleted is undefined in the source, as is reading
    through a null pointer: the loop is stuck there.  One unit of fuel
    pays for one popped pointer. *)
Fixpoint clear_loop (fuel : nat) (q : list (option nat)) (h : heap)
    (freed : list nat) : option (heap * list nat) :=
  match q with
  | [] => Some (h, freed)
  | p :: q' =>
    match fuel with
    | 0 => None
    | S fuel' =>
      node ← p;
      if decide (node ∈ freed) then None
      else
        nd ← h !! node;
        (* for (auto [c, nextNode] : node->children) q.push(nextNode); *)
        let q'' := q' ++ (map_to_list (children nd)).*2 in
        (* node->failureLink = node->outputLink = node->parent = nullptr; *)
        h1 ← modify h node (set_parent nullptr);
        h2 ← modify h1 node (set_outputLink nullptr);
        h3 ← modify h2 node (set_failureLink nullptr);
        (* delete node; *)
        clear_loop fuel' q'' h3 (node :: freed)
    end
  end.

(** [clear()], the body of the destructor: the arena it leaves and the
    cells it deleted. *)
Definition clear (h : heap) : option (heap * list nat) :=
  clear_loop (length h) [Some root] h [].

(** * Specification vocabulary

    The predicates and reference functions the statements below are
    written in: the invariants of the arena, the string notions behind
    the links, and the reference definitions the claims compare the code
    with. *)

(** ** Invariants of the arena *)

(** Two arenas that agree on a projection of every cell. *)
Definition same_on {A} (f : Node → A) (h h' : list Node) : Prop :=
  f <$> h = f <$> h'.

(** The fields that make up the tree, the payload and the links. *)
Definition tree (nd : Node) := (children nd, parent nd, parentChar nd).

Definition shape (nd : Node) := (tree nd, isWord nd, pattern nd).

Definition links (nd : Node) := (failureLink nd, outputLink nd).

(** The trie invariant.  The ghost list [paths] gives, for every address,
    the string spelled by the edges from the root to that cell: address 0
    spells the empty string, no two cells spell the same string, every
    edge extends the string of its source by its symbol, and every
    non-root cell is the child of the cell spelling its string without the
    last symbol, with [parent] and [parentChar] saying so. *)
Record trie_inv (h : list Node) (paths : list (list ascii)) : Prop := {
  ti_len : length paths = length h;
  ti_root : paths !! root = Some [];
  ti_nodup : NoDup paths;
  ti_edge : ∀ p nd c q,
    h !! p = Some nd → children nd !! c = Some q →
    ∃ n u, q = Some n ∧ paths !! p = Some u ∧ paths !! n = Some (u ++ [c]);
  ti_parent : ∀ n u c,
    paths !! n = Some (u ++ [c]) →
    ∃ p pd nd, paths !! p = Some u ∧ h !! p = Some pd ∧
               children pd !! c = Some (Some n) ∧ h !! n = Some nd ∧
               parent nd = Some p ∧ parentChar nd = c;
  ti_root_parent : ∀ nd, h !! root = Some nd → parent nd = None
}.

(** The arena after one loop iteration that allocates: the new cell sits
    at address [length h], already linked to its parent. *)
Definition grown (h : list Node) (node : nat) (nd : Node) (c : ascii)
  : list Node :=
  <[node := set_children (<[c := Some (length h)]> (children nd)) nd]> h
    ++ [set_parentChar c (set_parent (Some node) new_Node)].

(** The trie of the word list [ws], before any link is computed. *)
Record trie_of (ws : list (list ascii)) (h : list Node)
    (paths : list (list ascii)) : Prop := {
  to_trie : trie_inv h paths;
  to_word : ∀ n t nd, paths !! n = Some t → h !! n = Some nd →
    (isWord nd = true ↔ t ∈ ws) ∧ (isWord nd = true → pattern nd = t);
  to_cover : ∀ w, w ∈ ws → w ∈ paths;
  to_nolinks : ∀ n nd, h !! n = Some nd → links nd = (None, None)
}.

(** Every node lies on the way to some inserted word. *)
Definition path_min (ms paths : list (list ascii)) : Prop :=
  ∀ t, t ∈ paths → t = [] ∨ ∃ w, w ∈ ms ∧ t `prefix_of` w.

(** The pointers pushed after visiting the cell [n]. *)
Definition kids (h : list Node) (n : nat) : list (option nat) :=
  match h !! n with
  | Some nd => (map_to_list (children nd)).*2
  | None => []
  end.

Definition kids_of (h : list Node) (p : option nat) : list (option nat) :=
  from_option (kids h) [] p.

(** The queue of the traversal at level [k]: the nodes at depth [k]. *)
Definition at_depth (paths : list (list ascii)) (k : nat)
    (q : list (option nat)) : Prop :=
  ∀ p, p ∈ q ↔ ∃ n t, p = Some n ∧ paths !! n = Some t ∧ length t = k.

(** ** Longest suffixes

    Over an arbitrary set [P] of strings (the strings spelled by the
    trie) and a set [W] (the words). *)

(** [t] is the longest suffix of [s] that satisfies [Q]. *)
Definition maxsuf (Q : list ascii → Prop) (s t : list ascii) : Prop :=
  t `suffix_of` s ∧ Q t ∧
  ∀ t', t' `suffix_of` s → Q t' → length t' ≤ length t.

Section suffix_vocabulary.
Context (P W : list ascii → Prop).
Implicit Types (s t u x y : list ascii) (c : ascii).

(** longest suffix in [P] *)
Definition ls : list ascii → list ascii → Prop := maxsuf P.

(** longest proper suffix in [P]: the failure function *)
Definition lps s : list ascii → Prop :=
  maxsuf (λ t, length t < length s ∧ P t) s.

(** longest suffix of [x] that [c] extends inside [P] *)
Definition best c : list ascii → list ascii → Prop :=
  maxsuf (λ t, P (t ++ [c])).

(** no suffix of [x] is extended by [c] inside [P] *)
Definition nobest x c : Prop := ∀ t, t `suffix_of` x → ¬ P (t ++ [c]).

(** the invariant of a walk down the failure chain of [x0]: no suffix of
    [x0] longer than the cursor [x] is extended by [c] *)
Definition above x0 c x : Prop :=
  x `suffix_of` x0 ∧
  ∀ t, t `suffix_of` x0 → length x < length t → ¬ P (t ++ [c]).

(** a non-empty proper suffix of [s] that is a word *)
Definition wcand s t : Prop := length t < length s ∧ t ≠ [] ∧ W t.

(** the longest one: the output link *)
Definition wsuf s : list ascii → Prop := maxsuf (wcand s) s.

(** there is none *)
Definition no_wsuf s : Prop := ∀ t, t `suffix_of` s → ¬ wcand s t.
End suffix_vocabulary.

(** ** What the links mean *)

(** The part of [trie_of] that survives the link passes. *)
Record shaped (ws : list (list ascii)) (h : list Node)
    (paths : list (list ascii)) : Prop := {
  sh_trie : trie_inv h paths;
  sh_word : ∀ n t nd, paths !! n = Some t → h !! n = Some nd →
    (isWord nd = true ↔ t ∈ ws) ∧ (isWord nd = true → pattern nd = t);
  sh_cover : ∀ w, w ∈ ws → w ∈ paths
}.

(** The links of a node spelling the non-empty string [t]: the failure
    link leads to the longest proper suffix of [t] in the trie, the output
    link to the longest non-empty proper suffix that is a word. *)
Definition links_sem (ws paths : list (list ascii)) (t : list ascii)
    (l : option nat * option nat) : Prop :=
  (∃ f x, l.1 = Some f ∧ paths !! f = Some x ∧ lps (.∈ paths) t x) ∧
  match l.2 with
  | None => no_wsuf (.∈ ws) t
  | Some o => ∃ y, paths !! o = Some y ∧ wsuf (.∈ ws) t y
  end.

(** The cell [n] carries its final links: none at the root, the
    longest-suffix links elsewhere. *)
Definition linked (ws paths : list (list ascii)) (h : list Node) (n : nat)
  : Prop :=
  ∀ t nd, paths !! n = Some t → h !! n = Some nd →
    if decide (t = []) then links nd = (None, None)
    else links_sem ws paths t (links nd).

(** A node the link pass has not reached yet. *)
Definition pending (h : list Node) (n : nat) : Prop :=
  ∀ nd, h !! n = Some nd → links nd = (None, None).

(** The automaton of the word list [ws]: the trie of [ws] with every
    cell linked. *)
Record automaton (ws : list (list ascii)) (h : list Node)
    (paths : list (list ascii)) : Prop := {
  au_shaped : shaped ws h paths;
  au_linked : ∀ n, linked ws paths h n;
  au_min : path_min ws paths
}.

(** ** Reference definitions of the claims *)

(** The depth of a node: the number of [parent] links up to the root. *)
Fixpoint depth_from (fuel : nat) (h : list Node) (n : nat) : option nat :=
  nd ← h !! n;
  match parent nd with
  | None => Some 0
  | Some p =>
    match fuel with
    | 0 => None
    | S fuel' => S <$> depth_from fuel' h p
    end
  end.

Definition depth (h : list Node) (n : nat) : option nat :=
  depth_from (length h) h n.

(** The number of [failureLink] pointers followed from a node until the
    link is null. *)
Fixpoint chain_from (fuel : nat) (h : list Node) (n : nat) : option nat :=
  nd ← h !! n;
  match failureLink nd with
  | None => Some 0
  | Some f =>
    match fuel with
    | 0 => None
    | S fuel' => S <$> chain_from fuel' h f
    end
  end.

Definition chain_length (h : list Node) (n : nat) : option nat :=
  chain_from (length h) h n.

(** The failure-link recurrence in the words of the specification: "While
    the cursor is not the root and has no child for symbol c, advance the
    cursor to cursor.failureLink". *)
Fixpoint spec_cursor (fuel : nat) (h : list Node) (c : ascii) (cursor : nat)
  : option nat :=
  cn ← h !! cursor;
  if bool_decide (cursor ≠ root) && negb (contains (children cn) c) then
    match fuel with
    | 0 => None
    | S fuel' => f ← failureLink cn; spec_cursor fuel' h c f
    end
  else Some cursor.

(** "initialize a cursor at p.failureLink ... If the cursor (including
    possibly the root) has a child for c, set n.failureLink to that child;
    otherwise set n.failureLink = root".  The result is the pointer the
    specification assigns. *)
Definition spec_failureLink (h : list Node) (p : nat) (c : ascii)
  : option (option nat) :=
  pn ← h !! p;
  start ← failureLink pn;
  cursor ← spec_cursor (length h) h c start;
  cn ← h !! cursor;
  match children cn !! c with
  | Some child => Some child
  | None => Some (Some root)
  end.

(** A string literal as a [std::string]. *)
Definition chars (x : string) : list ascii := list_ascii_of_string x.

(** Construct the automaton for [words], then run [findPatterns] on
    [text]: the printed (pattern, end index) pairs. *)
Definition scan (words : list (list ascii)) (text : list ascii)
  : option (list (list ascii * Z)) :=
  h ← Aho_Corasick words;
  '(out, _) ← findPatterns text h;
  Some out.

(** "Start index of a match is derivable as
    endIndex - length(pattern) + 1." *)
Definition start_of (m : list ascii * Z) : list ascii * Z :=
  (m.1, (m.2 - Z.of_nat (length m.1) + 1)%Z).

(** (pattern, start index, end index) *)
Definition triple_of (m : list ascii * Z) : list ascii * Z * Z :=
  (m.1, (m.2 - Z.of_nat (length m.1) + 1)%Z, m.2).

(** The matches of a scan as (pattern, start, end) triples. *)
Definition matches (words : list (list ascii)) (text : list ascii)
  : option (list (list ascii * Z * Z)) :=
  out ← scan words text; Some (map triple_of out).

(** The brute-force reference of the specification: "naively checking,
    for every position in T and every pattern in P, whether the pattern
    occurs starting there". *)
Definition occurs_at (p text : list ascii) (j : nat) : bool :=
  bool_decide (take (length p) (drop j text) = p).

Definition naive (words : list (list ascii)) (text : list ascii)
  : list (list ascii * Z) :=
  j ← seq 0 (length text);
  p ← words;
  if occurs_at p text j then [(p, Z.of_nat j)] else [].

(** The word list without its repeated entries, first occurrences kept in
    order. *)
Fixpoint dedup_from (seen words : list (list ascii)) : list (list ascii) :=
  match words with
  | [] => []
  | w :: rest =>
    if bool_decide (w ∈ seen) then dedup_from seen rest
    else w :: dedup_from (seen ++ [w]) rest
  end.

Definition dedup (words : list (list ascii)) : list (list ascii) :=
  dedup_from [] words.

(** ** Reading the trie

    The string a node stands for and the node a string leads to, both
    read off the fields of the cells. *)

(** The string spelled by the [parentChar] fields on the way up the
    [parent] links from a node to the root. *)
Fixpoint spell_from (fuel : nat) (h : list Node) (n : nat)
  : option (list ascii) :=
  nd ← h !! n;
  match parent nd with
  | None => Some []
  | Some p =>
    match fuel with
    | 0 => None
    | S fuel' => u ← spell_from fuel' h p; Some (u ++ [parentChar nd])
    end
  end.

Definition spell (h : list Node) (n : nat) : option (list ascii) :=
  spell_from (length h) h n.

(** The node reached from [n] along the [children] edges labelled by the
    symbols of [s]. *)
Fixpoint walk (h : list Node) (n : nat) (s : list ascii) : option nat :=
  match s with
  | [] => h !! n ≫= λ _, Some n
  | c :: s' => nd ← h !! n; q ← children nd !! c; a ← q; walk h a s'
  end.

(** The prefixes of a word, the empty one and the word itself included. *)
Definition prefixes (w : list ascii) : list (list ascii) :=
  (λ k, take k w) <$> seq 0 (S (length w)).

(** The distinct prefixes of the words of a list, with the empty string. *)
Definition prefix_set (words : list (list ascii)) : gset (list ascii) :=
  list_to_set ([] :: (words ≫= prefixes)).

(** ** The order of the printed lines *)

(** [a] is printed before [b]: at an earlier position, or at the same
    position and longer. *)
Definition before (a b : list ascii * Z) : Prop :=
  (a.2 < b.2)%Z ∨ (a.2 = b.2 ∧ length b.1 < length a.1).

(** ** The scanner's state and its work *)

(** The node the [for] loop of [findPatterns] stands on when it ends: the
    last value of its variable [node]. *)
Fixpoint final_node (text : list ascii) (i : Z) (node : nat) (h : list Node)
  : option nat :=
  match text with
  | [] => Some node
  | c :: rest =>
    '(h1, node', _) ← consume h c i node;
    final_node rest (i + 1)%Z node' h1
  end.

(** The mismatch loop of [findPatterns] with a counter: the node it stops
    on, and how many times [node = node->failureLink] ran. *)
Fixpoint fail_hops (fuel : nat) (h : list Node) (c : ascii) (node : nat)
  : option (nat * nat) :=
  nd ← h !! node;
  match failureLink nd with
  | None => Some (node, 0)
  | Some f =>
    if contains (children nd) c then Some (node, 0)
    else match fuel with
         | 0 => None
         | S fuel' => '(n, j) ← fail_hops fuel' h c f; Some (n, S j)
         end
  end.

(** The failure links followed while consuming one symbol: none when the
    current node has the edge, else those of the mismatch loop. *)
Definition consume_hops (h : list Node) (c : ascii) (node : nat)
  : option nat :=
  nd ← h !! node;
  if contains (children nd) c then Some 0
  else '(_, j) ← fail_hops (length h) h c node; Some j.

(** The failure links followed over a whole scan. *)
Fixpoint scan_hops (text : list ascii) (i : Z) (node : nat) (h : list Node)
  : option nat :=
  match text with
  | [] => Some 0
  | c :: rest =>
    j ← consume_hops h c node;
    '(h1, node', _) ← consume h c i node;
    k ← scan_hops rest (i + 1)%Z node' h1;
    Some (j + k)
  end.

(** ** The numbering of the nodes *)


(** * Proofs *)

(** ** Reading and writing the arena *)

Section heap_lemmas.
Implicit Types (h : list Node) (nd : Node) (c : ascii).

Lemma modify_Some h a f nd :
  h !! a = Some nd → modify h a f = Some (<[a := f nd]> h).
Proof. intros E. unfold modify. by rewrite E. Qed.


Lemma modify_same h a f nd :
  h !! a = Some nd → f nd = nd → modify h a f = Some h.
Proof.
  intros E F. rewrite (modify_Some _ _ _ _ E), F. by rewrite list_insert_id.
Qed.

Lemma contains_true m c : contains m c = true ↔ is_Some (m !! c).
Proof. unfold contains. apply bool_decide_eq_true. Qed.

Lemma contains_false m c : contains m c = false ↔ m !! c = None.
Proof.
  unfold contains. rewrite bool_decide_eq_false. symmetry. apply eq_None_not_Some.
Qed.

Lemma contains_lookup m c q : m !! c = Some q → contains m c = true.
Proof. intros E. apply contains_true. eauto. Qed.

Lemma children_at_present h node c nd q :
  h !! node = Some nd → children nd !! c = Some q →
  children_at h node c = Some (h, q).
Proof. intros E F. unfold children_at. rewrite E. simpl. by rewrite F. Qed.
End heap_lemmas.

Section same_on.
Context {A : Type} (f : Node → A).
Implicit Types (h : list Node).

Lemma same_on_refl h : same_on f h h.
Proof. done. Qed.

Lemma same_on_trans h1 h2 h3 :
  same_on f h1 h2 → same_on f h2 h3 → same_on f h1 h3.
Proof. unfold same_on. congruence. Qed.

Lemma same_on_sym h1 h2 : same_on f h1 h2 → same_on f h2 h1.
Proof. unfold same_on. congruence. Qed.

Lemma same_on_length h h' : same_on f h h' → length h = length h'.
Proof.
  intros E. rewrite <- (length_fmap f h), <- (length_fmap f h'). by rewrite E.
Qed.

Lemma same_on_lookup h h' n nd :
  same_on f h h' → h !! n = Some nd →
  ∃ nd', h' !! n = Some nd' ∧ f nd' = f nd.
Proof.
  intros E L. assert ((f <$> h') !! n = Some (f nd)) as L'.
  { rewrite <- E, list_lookup_fmap, L. done. }
  rewrite list_lookup_fmap in L'. destruct (h' !! n) as [nd'|]; [|done].
  exists nd'. split; [done|]. by injection L'.
Qed.

Lemma same_on_insert h a g nd :
  h !! a = Some nd → f (g nd) = f nd → same_on f h (<[a := g nd]> h).
Proof.
  intros L E. unfold same_on. rewrite list_fmap_insert, E.
  symmetry. apply list_insert_id. by rewrite list_lookup_fmap, L.
Qed.

End same_on.

(** ** Consequences of the trie invariant *)

Section trie_facts.
Context (h : list Node) (paths : list (list ascii)) (TI : trie_inv h paths).

Lemma path_unique n m t :
  paths !! n = Some t → paths !! m = Some t → n = m.
Proof. intros. eapply NoDup_lookup; eauto using ti_nodup. Qed.

Lemma path_node n t : paths !! n = Some t → is_Some (h !! n).
Proof.
  intros L. apply lookup_lt_is_Some. rewrite <- (ti_len _ _ TI).
  by eapply lookup_lt_Some.
Qed.

Lemma node_path n nd : h !! n = Some nd → is_Some (paths !! n).
Proof.
  intros L. apply lookup_lt_is_Some. rewrite (ti_len _ _ TI).
  by eapply lookup_lt_Some.
Qed.

Lemma edge_child p u nd c q :
  paths !! p = Some u → h !! p = Some nd → children nd !! c = Some q →
  ∃ n, q = Some n ∧ paths !! n = Some (u ++ [c]).
Proof.
  intros Lp Ln Lc. destruct (ti_edge _ _ TI _ _ _ _ Ln Lc) as (n & u' & -> & Lp' & Lq).
  exists n. split; [done|]. congruence.
Qed.

Lemma child_edge p u nd c n :
  paths !! p = Some u → h !! p = Some nd → paths !! n = Some (u ++ [c]) →
  children nd !! c = Some (Some n).
Proof.
  intros Lp Ln Lc.
  destruct (ti_parent _ _ TI _ _ _ Lc) as (p' & pd & _ & Lp' & Lpd & Lch & _).
  assert (p' = p) as -> by eauto using path_unique. congruence.
Qed.

Lemma path_prefix_closed u c : u ++ [c] ∈ paths → u ∈ paths.
Proof.
  intros [n L]%list_elem_of_lookup.
  destruct (ti_parent _ _ TI _ _ _ L) as (p & _ & _ & Lp & _).
  by eapply list_elem_of_lookup_2.
Qed.

Lemma path_prefixes t u : t ++ u ∈ paths → t ∈ paths.
Proof.
  revert t. induction u as [|c u IH] using rev_ind; intros t.
  - by rewrite app_nil_r.
  - rewrite app_assoc. intros H%path_prefix_closed. by apply IH.
Qed.

Lemma path_nil_in : [] ∈ paths.
Proof. eapply list_elem_of_lookup_2, ti_root, TI. Qed.

(** A node at depth [d] has [d] proper ancestors, all distinct cells. *)
Lemma depth_bound n t : paths !! n = Some t → length t < length paths.
Proof.
  intros L.
  assert (∀ k, k ≤ length t → take k t ∈ paths) as P.
  { intros k _. apply (path_prefixes _ (drop k t)).
    rewrite take_drop. by eapply list_elem_of_lookup_2. }
  set (l := (λ k, take k t) <$> seq 0 (S (length t))).
  assert (NoDup l) as ND.
  { apply NoDup_fmap_2_strong; [|apply NoDup_seq].
    intros a b [_ Ha]%elem_of_seq [_ Hb]%elem_of_seq E.
    apply (f_equal length) in E. rewrite !length_take in E. lia. }
  assert (l ⊆+ paths) as Sub.
  { apply NoDup_submseteq; [done|]. intros x (k & -> & [_ Hk]%elem_of_seq)%list_elem_of_fmap.
    apply P. lia. }
  apply submseteq_length in Sub. unfold l in Sub.
  rewrite length_fmap, length_seq in Sub. lia.
Qed.
End trie_facts.

Lemma trie_inv_same_tree h h' paths :
  same_on tree h h' → trie_inv h paths → trie_inv h' paths.
Proof.
  intros S TI. pose proof (same_on_sym _ _ _ S) as S'.
  split.
  - rewrite (ti_len _ _ TI). by eapply same_on_length.
  - apply TI.
  - apply TI.
  - intros p nd c q Ln Lc.
    destruct (same_on_lookup _ _ _ _ _ S' Ln) as (nd0 & L0 & [= E1 E2 E3]).
    eapply (ti_edge _ _ TI); [done|]. by rewrite E1.
  - intros n u c L.
    destruct (ti_parent _ _ TI _ _ _ L) as (p & pd & nd & Lp & Lpd & Lc & Lnd & Ep & Ec).
    destruct (same_on_lookup _ _ _ _ _ S Lpd) as (pd' & Lpd' & [= E1 E2 E3]).
    destruct (same_on_lookup _ _ _ _ _ S Lnd) as (nd' & Lnd' & [= F1 F2 F3]).
    exists p, pd', nd'. rewrite E1, F2, F3. done.
  - intros nd Ln.
    destruct (same_on_lookup _ _ _ _ _ S' Ln) as (nd0 & L0 & [= E1 E2 E3]).
    rewrite <- E2. by eapply (ti_root_parent _ _ TI).
Qed.

(** ** [insert] keeps the trie invariant *)

Section insert_step.
Context (h : list Node) (paths : list (list ascii)) (TI : trie_inv h paths).
Context (node : nat) (nd : Node) (pre : list ascii) (c : ascii).
Context (Lp : paths !! node = Some pre) (Ln : h !! node = Some nd).

Lemma insert_loop_present q s' :
  children nd !! c = Some q →
  ∃ n, q = Some n ∧ paths !! n = Some (pre ++ [c]) ∧
       insert_loop (c :: s') node h = insert_loop s' n h.
Proof.
  intros Lc.
  destruct (edge_child _ _ TI _ _ _ _ _ Lp Ln Lc) as (n & -> & Lq).
  destruct (ti_parent _ _ TI _ _ _ Lq)
    as (p & pd & ndn & Lp' & Lpd & Lch & Lndn & Ep & Ec).
  assert (p = node) as -> by eauto using path_unique.
  exists n. split; [done|]. split; [done|].
  assert (set_parent (Some node) ndn = ndn) as E1
    by (destruct ndn; simpl in *; by subst).
  assert (set_parentChar c ndn = ndn) as E2
    by (destruct ndn; simpl in *; by subst).
  cbn [insert_loop]. rewrite Ln. cbn.
  rewrite (contains_lookup _ _ _ Lc). cbn.
  rewrite (children_at_present _ _ _ _ _ Ln Lc). cbn.
  rewrite (modify_same _ _ _ _ Lndn E1). cbn.
  rewrite (children_at_present _ _ _ _ _ Ln Lc). cbn.
  rewrite (modify_same _ _ _ _ Lndn E2). cbn.
  rewrite (children_at_present _ _ _ _ _ Ln Lc). done.
Qed.

Lemma grown_lookup m :
  grown h node nd c !! m =
    if decide (m = length h)
    then Some (set_parentChar c (set_parent (Some node) new_Node))
    else if decide (m = node)
         then Some (set_children (<[c := Some (length h)]> (children nd)) nd)
         else h !! m.
Proof.
  pose proof (lookup_lt_Some _ _ _ Ln) as Lt. unfold grown.
  case_decide as E1.
  - subst m. rewrite lookup_app_r; rewrite length_insert; [|lia].
    by rewrite Nat.sub_diag.
  - case_decide as E2.
    + subst m. rewrite lookup_app_l by (rewrite length_insert; lia).
      by apply list_lookup_insert_eq.
    + destruct (decide (m < length h)) as [Lm|Lm].
      * rewrite lookup_app_l by (rewrite length_insert; lia).
        by apply list_lookup_insert_ne.
      * rewrite (lookup_ge_None_2 h) by lia.
        apply lookup_ge_None_2. rewrite length_app, length_insert. simpl. lia.
Qed.

Lemma insert_loop_fresh s' :
  children nd !! c = None →
  insert_loop (c :: s') node h = insert_loop s' (length h) (grown h node nd c).
Proof.
  intros Lc. pose proof (lookup_lt_Some _ _ _ Ln) as Lt.
  set (nd1 := set_children (<[c := Some (length h)]> (children nd)) nd).
  set (h1 := <[node := nd1]> (h ++ [new_Node])).
  assert (h1 !! node = Some nd1) as L1.
  { apply list_lookup_insert_eq. rewrite length_app. lia. }
  assert (children nd1 !! c = Some (Some (length h))) as C1.
  { unfold nd1. cbn. apply lookup_insert_eq. }
  assert (h1 !! length h = Some new_Node) as L2.
  { unfold h1. rewrite list_lookup_insert_ne by lia.
    rewrite lookup_app_r by lia. by rewrite Nat.sub_diag. }
  set (h3 := <[length h := set_parent (Some node) new_Node]> h1).
  assert (h3 !! node = Some nd1) as L3.
  { unfold h3. rewrite list_lookup_insert_ne by lia. done. }
  assert (h3 !! length h = Some (set_parent (Some node) new_Node)) as L4.
  { apply list_lookup_insert_eq. unfold h1.
    rewrite length_insert, length_app. simpl. lia. }
  set (h5 := <[length h := set_parentChar c (set_parent (Some node) new_Node)]> h3).
  assert (h5 !! node = Some nd1) as L5.
  { unfold h5. rewrite list_lookup_insert_ne by lia. done. }
  assert (h5 = grown h node nd c) as <-.
  { apply list_eq. intros m. rewrite grown_lookup. unfold h5, h3.
    rewrite list_insert_insert_eq. case_decide as E1.
    - subst m. apply list_lookup_insert_eq. unfold h1.
      rewrite length_insert, length_app. simpl. lia.
    - rewrite list_lookup_insert_ne by done. unfold h1. case_decide as E2.
      + subst m. apply list_lookup_insert_eq. rewrite length_app. lia.
      + rewrite list_lookup_insert_ne by done.
        destruct (decide (m < length h)).
        * by apply lookup_app_l.
        * rewrite (lookup_ge_None_2 h) by lia.
          apply lookup_ge_None_2. rewrite length_app. simpl. lia. }
  cbn [insert_loop]. rewrite Ln. cbn.
  apply contains_false in Lc. rewrite Lc. cbn.
  rewrite (modify_Some _ _ _ nd) by (apply lookup_app_l_Some, Ln).
  cbn. fold nd1. fold h1.
  rewrite (children_at_present _ _ _ _ _ L1 C1). cbn.
  rewrite (modify_Some _ _ _ _ L2). cbn. fold h3.
  rewrite (children_at_present _ _ _ _ _ L3 C1). cbn.
  rewrite (modify_Some _ _ _ _ L4). cbn. fold h5.
  rewrite (children_at_present _ _ _ _ _ L5 C1). done.
Qed.

Lemma fresh_path_new : children nd !! c = None → pre ++ [c] ∉ paths.
Proof.
  intros Lc [n L]%list_elem_of_lookup.
  pose proof (child_edge _ _ TI _ _ _ _ _ Lp Ln L). congruence.
Qed.

Lemma grown_trie_inv :
  children nd !! c = None →
  trie_inv (grown h node nd c) (paths ++ [pre ++ [c]]).
Proof.
  intros Lc. pose proof (lookup_lt_Some _ _ _ Ln) as Lt.
  pose proof (ti_len _ _ TI) as Len.
  assert (∀ m x, paths !! m = Some x → m ≠ length h) as Old.
  { intros m x L%lookup_lt_Some. lia. }
  assert ((paths ++ [pre ++ [c]]) !! length h = Some (pre ++ [c])) as New.
  { rewrite lookup_app_r by lia. by rewrite Len, Nat.sub_diag. }
  split.
  - unfold grown. rewrite !length_app, length_insert. simpl. lia.
  - apply lookup_app_l_Some, TI.
  - apply NoDup_app. split; [apply TI|]. split; [|apply NoDup_singleton].
    intros x Hx ->%list_elem_of_singleton. by apply fresh_path_new.
  - intros p ndp c' q. rewrite grown_lookup.
    case_decide as E1; [intros [= <-]; cbn; by rewrite lookup_empty|].
    case_decide as E2.
    + subst p. intros [= <-]. cbn. rewrite lookup_insert.
      case_decide as E3.
      * subst c'. intros [= <-]. exists (length h), pre.
        split; [done|]. split; [by apply lookup_app_l_Some|done].
      * intros Lc'.
        destruct (ti_edge _ _ TI _ _ _ _ Ln Lc') as (n & u & -> & Lu & Lq).
        exists n, u. eauto using lookup_app_l_Some.
    + intros Lp' Lc'.
      destruct (ti_edge _ _ TI _ _ _ _ Lp' Lc') as (n & u & -> & Lu & Lq).
      exists n, u. eauto using lookup_app_l_Some.
  - intros n u c' [[_ L]|[-> E]]%lookup_snoc_Some.
    + destruct (ti_parent _ _ TI _ _ _ L)
        as (p & pd & ndn & Lp' & Lpd & Lch & Lndn & Ep & Ec).
      assert (∃ pd', grown h node nd c !! p = Some pd' ∧
                     children pd' !! c' = Some (Some n)) as (pd' & Gp & Gc).
      { rewrite grown_lookup. rewrite decide_False by eauto.
        case_decide as E2; [|eauto]. subst p. eexists. split; [done|].
        cbn. assert (pd = nd) as -> by congruence.
        rewrite lookup_insert_ne; [done|]. congruence. }
      assert (∃ nd', grown h node nd c !! n = Some nd' ∧
                     parent nd' = Some p ∧ parentChar nd' = c')
        as (nd' & Gn & Gpar & Gch).
      { rewrite grown_lookup. rewrite decide_False by eauto.
        case_decide as E2; [|eauto]. subst n. eexists. split; [done|].
        cbn. assert (ndn = nd) as -> by congruence. done. }
      exists p, pd', nd'. eauto 10 using lookup_app_l_Some.
    + apply app_inj_tail in E as [<- <-]. rewrite Len.
      exists node. eexists. eexists.
      split; [by apply lookup_app_l_Some|].
      split; [|split; [|split]].
      * rewrite grown_lookup, decide_False by lia. by rewrite decide_True.
      * cbn. by rewrite lookup_insert_eq.
      * by rewrite grown_lookup, decide_True.
      * done.
  - intros nd0. rewrite grown_lookup.
    pose proof (ti_root _ _ TI) as R. rewrite decide_False by eauto.
    case_decide as E2; [|apply TI]. intros [= <-]. cbn.
    eapply (ti_root_parent _ _ TI). by rewrite E2.
Qed.
End insert_step.

Lemma trie_of_init : trie_of [] [new_Node] [[]].
Proof.
  split; [split|..].
  - done.
  - done.
  - apply NoDup_singleton.
  - intros [|p] nd c q; [|done]. intros [= <-]. cbn. by rewrite lookup_empty.
  - intros [|n] u c; [|done]. intros [= E]. by destruct u.
  - by intros nd [= <-].
  - intros [|n] t nd; [|done]. intros [= <-] [= <-]. cbn.
    split; [|done]. split; [done|]. by intros ?%elem_of_nil.
  - by intros w ?%elem_of_nil.
  - intros [|n] nd; [|done]. by intros [= <-].
Qed.

Lemma grown_trie_of ws h paths node nd pre c :
  trie_of ws h paths → paths !! node = Some pre → h !! node = Some nd →
  children nd !! c = None →
  trie_of ws (grown h node nd c) (paths ++ [pre ++ [c]]).
Proof.
  intros [TI W C NL] Lp Ln Lc.
  pose proof (ti_len _ _ TI) as Len.
  split.
  - by apply grown_trie_inv.
  - intros n t nd'. rewrite (grown_lookup h node nd c Ln).
    intros [[_ L]|[-> <-]]%lookup_snoc_Some.
    + rewrite decide_False by (apply lookup_lt_Some in L; lia).
      case_decide as E; [|by apply W]. subst n. intros [= <-]. cbn.
      by apply (W node t nd).
    + rewrite decide_True by done. intros [= <-]. cbn.
      split; [|done]. split; [done|]. intros Hin%C.
      by eapply fresh_path_new in Hin.
  - intros w Hw. apply elem_of_app. left. by apply C.
  - intros n nd'. rewrite (grown_lookup h node nd c Ln).
    case_decide; [by intros [= <-]|].
    case_decide; [|by apply NL]. intros [= <-].
    apply (NL _ _ Ln).
Qed.

Lemma insert_loop_spec ws s : ∀ pre node h paths,
  trie_of ws h paths → paths !! node = Some pre →
  ∃ node' h' paths',
    insert_loop s node h = Some (node', h') ∧
    trie_of ws h' paths' ∧ paths' !! node' = Some (pre ++ s) ∧
    paths `prefix_of` paths' ∧
    (∀ t, t ∈ paths' → t ∈ paths ∨ t `prefix_of` pre ++ s).
Proof.
  induction s as [|c s IH]; intros pre node h paths T Lp.
  - exists node, h, paths. rewrite app_nil_r. naive_solver.
  - destruct (path_node _ _ (to_trie _ _ _ T) _ _ Lp) as [nd Ln].
    destruct (children nd !! c) as [q|] eqn:Lc.
    + destruct (insert_loop_present _ _ (to_trie _ _ _ T) _ _ _ _ Lp Ln q s Lc)
        as (n & -> & Lq & ->).
      destruct (IH _ _ _ _ T Lq) as (node' & h' & paths' & E & T' & L' & P & M).
      exists node', h', paths'. rewrite <- app_assoc in L', M. done.
    + rewrite (insert_loop_fresh h node nd c Ln s Lc).
      pose proof (grown_trie_of _ _ _ _ _ _ _ T Lp Ln Lc) as T1.
      assert ((paths ++ [pre ++ [c]]) !! length h = Some (pre ++ [c])) as L1.
      { rewrite <- (ti_len _ _ (to_trie _ _ _ T)). by apply list_lookup_middle. }
      destruct (IH _ _ _ _ T1 L1) as (node' & h' & paths' & E & T' & L' & P & M).
      exists node', h', paths'. rewrite <- app_assoc in L', M.
      split; [done|]. split; [done|]. split; [done|]. split.
      * etrans; [|done]. by apply prefix_app_r.
      * intros t [[Ht| ->%list_elem_of_singleton]%elem_of_app|Ht]%M; auto.
        right. apply prefix_app, prefix_cons, prefix_nil.
Qed.

(** Walking an already present word allocates and changes nothing. *)
Lemma insert_loop_present_all s : ∀ pre node h paths,
  trie_inv h paths → paths !! node = Some pre → pre ++ s ∈ paths →
  ∃ node', insert_loop s node h = Some (node', h) ∧
           paths !! node' = Some (pre ++ s).
Proof.
  induction s as [|c s IH]; intros pre node h paths TI Lp Hin.
  - exists node. by rewrite app_nil_r.
  - destruct (path_node _ _ TI _ _ Lp) as [nd Ln].
    assert (pre ++ [c] ∈ paths) as [n Lq]%list_elem_of_lookup.
    { apply (path_prefixes _ _ TI _ s). by rewrite <- app_assoc. }
    pose proof (child_edge _ _ TI _ _ _ _ _ Lp Ln Lq) as Lc.
    destruct (insert_loop_present _ _ TI _ _ _ _ Lp Ln _ s Lc)
      as (n' & [= <-] & _ & ->).
    destruct (IH _ _ _ _ TI Lq) as (node' & E & L'); [by rewrite <- app_assoc|].
    exists node'. by rewrite <- app_assoc in L'.
Qed.

Lemma insert_spec ws w h paths :
  trie_of ws h paths →
  ∃ h' paths', insert w h = Some h' ∧ trie_of (ws ++ [w]) h' paths' ∧
               paths `prefix_of` paths' ∧
               (∀ t, t ∈ paths' → t ∈ paths ∨ t `prefix_of` w).
Proof.
  intros T.
  destruct (insert_loop_spec ws w [] root h paths T)
    as (node & h1 & paths' & E & [TI W C NL] & L & P & M);
    [apply T|cbn in L, M].
  destruct (path_node _ _ TI _ _ L) as [nd Ln].
  set (h2 := <[node := set_isWord true nd]> h1).
  assert (h2 !! node = Some (set_isWord true nd)) as L2.
  { apply list_lookup_insert_eq. by eapply lookup_lt_Some. }
  set (nd' := set_pattern w (set_isWord true nd)).
  set (h3 := <[node := nd']> h2).
  assert (∀ m, h3 !! m = if decide (m = node) then Some nd' else h1 !! m) as L3.
  { intros m. unfold h3, h2. rewrite list_insert_insert_eq. case_decide.
    - subst m. apply list_lookup_insert_eq. by eapply lookup_lt_Some.
    - by apply list_lookup_insert_ne. }
  assert (same_on tree h1 h3) as ST.
  { unfold h3, h2. rewrite list_insert_insert_eq.
    by apply (same_on_insert tree h1 node
                (λ n, set_pattern w (set_isWord true n)) nd). }
  exists h3, paths'. split; [|split; [split|done]].
  - unfold insert. rewrite E. cbn. rewrite (modify_Some _ _ _ _ Ln). cbn.
    fold h2. by rewrite (modify_Some _ _ _ _ L2).
  - by eapply trie_inv_same_tree.
  - intros n t ndn Lt. rewrite L3. case_decide as En.
    + subst n. intros [= <-]. cbn. assert (t = w) as -> by congruence.
      split; [|done]. split; [|done]. intros _. apply elem_of_app. right.
      by apply list_elem_of_singleton.
    + intros Lnn. destruct (W _ _ _ Lt Lnn) as [W1 W2]. split; [|done].
      rewrite W1, elem_of_app, list_elem_of_singleton.
      split; [auto|]. intros [?| ->]; [done|].
      destruct En. eapply path_unique; eauto.
  - intros x [Hx| ->%list_elem_of_singleton]%elem_of_app; [by apply C|].
    by eapply list_elem_of_lookup_2.
  - intros n ndn. rewrite L3. case_decide; [|by apply NL].
    intros [= <-]. apply (NL _ _ Ln).
Qed.

(** Re-inserting a word of the list leaves the arena as it is. *)
Lemma insert_present ws w h paths :
  trie_of ws h paths → w ∈ ws → insert w h = Some h.
Proof.
  intros [TI W C NL] Hw.
  destruct (insert_loop_present_all w [] root h paths TI) as (node & E & L);
    [apply TI|by apply C|cbn in L].
  destruct (path_node _ _ TI _ _ L) as [nd Ln].
  destruct (W _ _ _ L Ln) as [W1 W2].
  assert (isWord nd = true) as Iw by by apply W1.
  unfold insert. rewrite E. cbn.
  rewrite (modify_same _ _ _ _ Ln) by (destruct nd; cbn in *; by subst).
  cbn. apply (modify_same _ _ _ _ Ln).
  specialize (W2 Iw). destruct nd; cbn in *; by subst.
Qed.

Lemma insert_all_snoc words w h :
  insert_all (words ++ [w]) h = insert_all words h ≫= insert w.
Proof. unfold insert_all. by rewrite foldl_app. Qed.

Lemma insert_all_spec words :
  ∃ h paths, insert_all words [new_Node] = Some h ∧
             trie_of words h paths ∧ path_min words paths.
Proof.
  induction words as [|w words IH] using rev_ind.
  - exists [new_Node], [[]]. split; [done|]. split; [apply trie_of_init|].
    intros t ->%list_elem_of_singleton. by left.
  - destruct IH as (h & paths & E & T & M).
    destruct (insert_spec _ w _ _ T) as (h' & paths' & E' & T' & P & M').
    exists h', paths'. rewrite insert_all_snoc, E. split; [done|].
    split; [done|]. intros t [Ht|Ht]%M'.
    + destruct (M _ Ht) as [->|(x & Hx & Px)]; [by left|right].
      exists x. split; [|done]. apply elem_of_app. by left.
    + right. exists w. split; [|done]. apply elem_of_app. right.
      by apply list_elem_of_singleton.
Qed.

(** ** The level-order traversal visits every node, shallow ones first *)

Section traversal_spec.
Context (h0 : list Node) (paths : list (list ascii)).
Context (TI : trie_inv h0 paths).
Context {St : Type} (visit : nat → St → list Node → option (St * list Node)).
(** [G vis st h]: what holds once the nodes of [vis] have been visited. *)
Context (G : list nat → St → list Node → Prop).
Context (G_tree : ∀ vis st h, G vis st h → same_on tree h0 h).
Context (visit_ok : ∀ vis n t st h,
  G vis st h → paths !! n = Some t →
  (∀ m u, paths !! m = Some u → length u < length t → m ∈ vis) →
  ∃ st' h', visit n st h = Some (st', h') ∧ G (vis ++ [n]) st' h').

Lemma at_depth_root : at_depth paths 0 [Some root].
Proof.
  intros p. rewrite list_elem_of_singleton. split.
  - intros ->. exists root, []. split; [done|]. split; [apply TI|done].
  - intros (n & t & -> & L & ->%nil_length_inv). f_equal.
    eapply path_unique; eauto using ti_root.
Qed.

Lemma at_depth_kids k q : at_depth paths k q → at_depth paths (S k) (q ≫= kids_of h0).
Proof.
  intros D p'. rewrite list_elem_of_bind. split.
  - intros (p & Hp' & (n & t & -> & L & Len)%D). cbn in Hp'.
    unfold kids in Hp'. destruct (h0 !! n) as [nd|] eqn:Ln; [|by apply elem_of_nil in Hp'].
    apply list_elem_of_fmap in Hp' as ([c q'] & -> & Hc%elem_of_map_to_list).
    destruct (edge_child _ _ TI _ _ _ _ _ L Ln Hc) as (n' & -> & L').
    exists n', (t ++ [c]). rewrite length_app. cbn. split; [done|].
    split; [done|lia].
  - intros (n' & t' & -> & L' & Len).
    destruct t' as [|c u _] using rev_ind; [done|].
    rewrite length_app in Len. cbn in Len.
    destruct (ti_parent _ _ TI _ _ _ L') as (p & pd & nd & Lp & Lpd & Lc & _).
    exists (Some p). split.
    + cbn. unfold kids. rewrite Lpd. apply list_elem_of_fmap.
      exists (c, Some n'). split; [done|]. by apply elem_of_map_to_list.
    + apply D. exists p, u. split; [done|]. split; [done|lia].
Qed.

Lemma kids_same h n : same_on tree h0 h → kids h n = kids h0 n.
Proof.
  intros S. unfold kids. destruct (h0 !! n) as [nd|] eqn:L.
  - destruct (same_on_lookup _ _ _ _ _ S L) as (nd' & -> & [= -> _ _]). done.
  - apply lookup_ge_None_1 in L. rewrite (same_on_length _ _ _ S) in L.
    by rewrite (lookup_ge_None_2 _ _ L).
Qed.

Lemma level_spec k : ∀ q r vis st h,
  G vis st h →
  (∀ p, p ∈ q → ∃ n t, p = Some n ∧ paths !! n = Some t ∧ length t = k) →
  (∀ m u, paths !! m = Some u → length u < k → m ∈ vis) →
  ∃ st' h' vis',
    level visit (length q) (q ++ r) st h
      = Some (r ++ (q ≫= kids_of h0), st', h') ∧
    G vis' st' h' ∧ (∀ m, m ∈ vis → m ∈ vis') ∧
    (∀ n, Some n ∈ q → n ∈ vis').
Proof.
  induction q as [|p q IH]; intros r vis st h HG Hq Hvis.
  - exists st, h, vis. cbn. rewrite app_nil_r. split; [done|].
    split; [done|]. split; [done|]. by intros n ?%elem_of_nil.
  - destruct (Hq p) as (n & t & -> & L & Len); [left|].
    destruct (visit_ok vis n t st h HG L) as (st1 & h1 & V & HG1).
    { intros m u Lm Hu. eapply Hvis; [done|lia]. }
    pose proof (G_tree _ _ _ HG1) as S1.
    destruct (path_node _ _ TI _ _ L) as [nd0 L0].
    destruct (same_on_lookup _ _ _ _ _ S1 L0) as (nd1 & L1 & [= E1 _ _]).
    destruct (IH (r ++ kids h0 n) (vis ++ [n]) st1 h1 HG1)
      as (st' & h' & vis' & E & HG' & Sub & In).
    { intros p Hp. apply Hq. by right. }
    { intros m u Lm Hu. apply elem_of_app. left. by eapply Hvis. }
    exists st', h', vis'. split; [|split; [done|split]].
    + cbn. rewrite V. cbn. rewrite L1. cbn. rewrite E1.
      replace ((map_to_list (children nd0)).*2) with (kids h0 n)
        by (unfold kids; by rewrite L0).
      rewrite <- app_assoc, E. by rewrite <- app_assoc.
    + intros m Hm. apply Sub, elem_of_app. by left.
    + intros m [[= ->]|Hm]%elem_of_cons; [|by apply In].
      apply Sub, elem_of_app. right. by apply list_elem_of_singleton.
Qed.

Lemma levels_spec : ∀ fuel k q vis st h,
  G vis st h → at_depth paths k q →
  (∀ m u, paths !! m = Some u → length u < k → m ∈ vis) →
  length h0 ≤ k + fuel →
  ∃ st' h' vis',
    levels visit fuel q st h = Some (st', h') ∧ G vis' st' h' ∧
    (∀ m u, paths !! m = Some u → m ∈ vis').
Proof.
  induction fuel as [|fuel IH]; intros k q vis st h HG D Hvis Hf.
  - destruct q as [|p q].
    + exists st, h, vis. split; [done|]. split; [done|].
      intros m u L. eapply Hvis; [done|].
      pose proof (depth_bound _ _ TI _ _ L). rewrite (ti_len _ _ TI) in *. lia.
    + exfalso. destruct (proj1 (D p)) as (n & t & -> & L & Len); [left|].
      pose proof (depth_bound _ _ TI _ _ L). rewrite (ti_len _ _ TI) in *. lia.
  - destruct q as [|p q].
    + exists st, h, vis. split; [done|]. split; [done|].
      intros m u L. eapply Hvis; [done|].
      destruct (decide (length u < k)) as [|Hk]; [done|exfalso].
      assert (take k u ∈ paths) as [n Ln]%list_elem_of_lookup.
      { apply (path_prefixes _ _ TI _ (drop k u)). rewrite take_drop.
        by eapply list_elem_of_lookup_2. }
      assert (Some n ∈ []) as ?%elem_of_nil; [|done].
      apply D. exists n, (take k u). rewrite length_take. split; [done|].
      split; [done|lia].
    + destruct (level_spec k (p :: q) [] vis st h HG)
        as (st1 & h1 & vis1 & E & HG1 & Sub & In); [|done|].
      { intros p' Hp'. by apply D. }
      rewrite app_nil_r in E. cbn [app] in E.
      destruct (IH (S k) _ vis1 st1 h1 HG1 (at_depth_kids _ _ D))
        as (st' & h' & vis' & E' & HG' & All); [|lia|].
      { intros m u L Hu. destruct (decide (length u < k)); [by eapply Sub, Hvis|].
        apply In, D. exists m, u. split; [done|]. split; [done|lia]. }
      exists st', h', vis'. split; [|done].
      cbn [levels]. rewrite E. done.
Qed.

Lemma traversal_spec st h :
  G [] st h →
  ∃ st' h' vis,
    levels visit (length h0) [Some root] st h = Some (st', h') ∧
    G vis st' h' ∧ (∀ m u, paths !! m = Some u → m ∈ vis).
Proof.
  intros HG. apply (levels_spec _ 0 _ [] _ _ HG at_depth_root); [|lia].
  intros m u _ ?. lia.
Qed.
End traversal_spec.

(** ** Facts about longest suffixes

    The string facts behind the failure function, for a prefix-closed set
    [P] that holds the empty string and a subset [W] of it. *)

Section longest_suffix.
Implicit Types (s t u x y : list ascii) (c : ascii).

Lemma suffix_le t1 t2 s :
  t1 `suffix_of` s → t2 `suffix_of` s → length t1 ≤ length t2 →
  t1 `suffix_of` t2.
Proof.
  intros H1 H2 L. destruct (suffix_weak_total _ _ _ H1 H2) as [|H]; [done|].
  by rewrite (suffix_length_eq _ _ H L).
Qed.

Lemma suffix_same_length t1 t2 s :
  t1 `suffix_of` s → t2 `suffix_of` s → length t1 = length t2 → t1 = t2.
Proof.
  intros H1 H2 L. apply suffix_length_eq; [|lia].
  eapply suffix_le; eauto. lia.
Qed.

Lemma suffix_snoc_cases t u c :
  t `suffix_of` u ++ [c] → t = [] ∨ ∃ t', t = t' ++ [c] ∧ t' `suffix_of` u.
Proof.
  destruct t as [|a t' _] using rev_ind; [by left|]. intros H. right.
  pose proof (suffix_snoc_inv_1 _ _ _ _ H) as ->.
  exists t'. split; [done|]. by eapply suffix_snoc_inv_2.
Qed.

Lemma maxsuf_unique Q s t t' : maxsuf Q s t → maxsuf Q s t' → t = t'.
Proof.
  intros (S1 & Q1 & M1) (S2 & Q2 & M2).
  eapply suffix_same_length; eauto. apply Nat.le_antisymm; eauto.
Qed.

Lemma maxsuf_cover Q s x t :
  maxsuf Q s x → t `suffix_of` s → Q t → t `suffix_of` x.
Proof. intros (S1 & Q1 & M1) S2 Q2. eapply suffix_le; eauto. Qed.

Context (P : list ascii → Prop).
Context (P_nil : P []) (P_closed : ∀ u c, P (u ++ [c]) → P u).

Lemma lps_shorter s x : lps P s x → length x < length s.
Proof. by intros (_ & [? _] & _). Qed.

Lemma lps_in s x : lps P s x → P x.
Proof. by intros (_ & [_ ?] & _). Qed.

Lemma lps_suffix s x : lps P s x → x `suffix_of` s.
Proof. by intros (? & _). Qed.

Lemma above_start x0 c : above P x0 c x0.
Proof. split; [done|]. intros t H%suffix_length ?. lia. Qed.

Lemma above_step x0 c x y :
  above P x0 c x → ¬ P (x ++ [c]) → lps P x y → above P x0 c y.
Proof.
  intros [Sx A] N L. pose proof (lps_suffix _ _ L) as Sy.
  split; [by etrans|]. intros t St Lt Pt.
  destruct (decide (length x < length t)) as [|G1]; [by eapply A|].
  destruct (decide (length t = length x)) as [E|G2].
  - by rewrite (suffix_same_length _ _ _ St Sx E) in Pt.
  - destruct L as (_ & _ & M).
    assert (length t ≤ length y); [|lia]. apply M.
    + eapply suffix_le; eauto. lia.
    + split; [lia|]. by eapply P_closed.
Qed.

Lemma above_found x0 c x : above P x0 c x → P (x ++ [c]) → best P c x0 x.
Proof.
  intros [Sx A] Px. split; [done|]. split; [done|]. intros t St Pt.
  destruct (decide (length x < length t)); [|lia]. by destruct (A t).
Qed.

Lemma above_none x0 c : above P x0 c [] → ¬ P [c] → nobest P x0 c.
Proof.
  intros [_ A] N t St Pt. destruct t as [|a t]; [done|].
  eapply A; [done| |done]. cbn. lia.
Qed.

Lemma lps_single c : lps P [c] [].
Proof.
  split; [apply suffix_nil|]. split; [cbn; split; [lia|done]|].
  intros t _ [Lt _]. cbn in *. lia.
Qed.

Lemma lps_snoc_best u x c t : lps P u x → best P c x t → lps P (u ++ [c]) (t ++ [c]).
Proof.
  intros L (St & Pt & M). pose proof (lps_shorter _ _ L) as Lx.
  pose proof (suffix_length _ _ St) as Lt.
  split; [|split; [split|]].
  - apply suffix_snoc. etrans; [done|]. by eapply lps_suffix.
  - rewrite !length_app. cbn. lia.
  - done.
  - intros t' [->|(t'' & -> & S'')]%suffix_snoc_cases [Lt' Pt'];
      [cbn; lia|].
    rewrite !length_app in *. cbn in *.
    assert (length t'' ≤ length t); [|lia]. apply M; [|done].
    eapply maxsuf_cover; [done..|]. split; [lia|]. by eapply P_closed.
Qed.

Lemma lps_snoc_nobest u x c : lps P u x → nobest P x c → lps P (u ++ [c]) [].
Proof.
  intros L N. split; [apply suffix_nil|]. split.
  { split; [|done]. rewrite length_app. cbn. lia. }
  intros t' [->|(t'' & -> & S'')]%suffix_snoc_cases [Lt' Pt']; [done|].
  destruct (N t''); [|done]. rewrite !length_app in *. cbn in *.
  eapply maxsuf_cover; [done..|]. split; [lia|]. by eapply P_closed.
Qed.

Lemma ls_snoc_best U x c t : ls P U x → best P c x t → ls P (U ++ [c]) (t ++ [c]).
Proof.
  intros L (St & Pt & M). pose proof (suffix_length _ _ St) as Lt.
  split; [|split].
  - apply suffix_snoc. etrans; [done|]. apply L.
  - done.
  - intros t' [->|(t'' & -> & S'')]%suffix_snoc_cases Pt'; [cbn; lia|].
    rewrite !length_app in *. cbn in *.
    assert (length t'' ≤ length t); [|lia]. apply M; [|done].
    eapply maxsuf_cover; [done..|]. by eapply P_closed.
Qed.

Lemma ls_snoc_nobest U x c : ls P U x → nobest P x c → ls P (U ++ [c]) [].
Proof.
  intros L N. split; [apply suffix_nil|]. split; [done|].
  intros t' [->|(t'' & -> & S'')]%suffix_snoc_cases Pt'; [done|].
  destruct (N t''); [|done].
  eapply maxsuf_cover; [done..|]. by eapply P_closed.
Qed.

Lemma ls_nil : ls P [] [].
Proof.
  split; [done|]. split; [done|]. by intros t ->%suffix_nil_inv _.
Qed.

Context (W : list ascii → Prop) (W_P : ∀ t, W t → P t).

Lemma wcand_below_lps s x t :
  lps P s x → t `suffix_of` s → wcand W s t → t `suffix_of` x.
Proof.
  intros L St (Lt & _ & Wt).
  eapply (maxsuf_cover _ s); [exact L|exact St|]. split; [done|by apply W_P].
Qed.

Lemma wsuf_fl_word s x : lps P s x → x ≠ [] → W x → wsuf W s x.
Proof.
  intros L N Wx. split; [by eapply lps_suffix|]. split.
  { split; [by eapply lps_shorter|done]. }
  intros t St Ct. apply suffix_length. by eapply wcand_below_lps.
Qed.

Lemma wcand_inherit s x t :
  lps P s x → ¬ W x → t `suffix_of` s → wcand W s t →
  t `suffix_of` x ∧ wcand W x t.
Proof.
  intros L N St Ct. pose proof (wcand_below_lps _ _ _ L St Ct) as Sx.
  split; [done|]. destruct Ct as (Lt & Nt & Wt). split; [|done].
  pose proof (suffix_length _ _ Sx).
  destruct (decide (length t = length x)) as [E|]; [|lia].
  destruct N. by rewrite <- (suffix_length_eq _ _ Sx) by lia.
Qed.

Lemma wsuf_fl_inherit s x y : lps P s x → ¬ W x → wsuf W x y → wsuf W s y.
Proof.
  intros L N (Sy & (Ly & Ny & Wy) & M). pose proof (lps_shorter _ _ L).
  split; [etrans; [done|by eapply lps_suffix]|]. split.
  { split; [lia|done]. }
  intros t St Ct. destruct (wcand_inherit _ _ _ L N St Ct). by apply M.
Qed.

Lemma no_wsuf_fl_inherit s x : lps P s x → ¬ W x → no_wsuf W x → no_wsuf W s.
Proof.
  intros L N Nx t St Ct. destruct (wcand_inherit _ _ _ L N St Ct).
  by eapply Nx.
Qed.

Lemma no_wsuf_fl_nil s : lps P s [] → no_wsuf W s.
Proof.
  intros L t St Ct. pose proof (wcand_below_lps _ _ _ L St Ct) as E.
  apply suffix_nil_inv in E. by destruct Ct as (_ & ? & _).
Qed.

Lemma wsuf_chain s y p :
  wsuf W s y →
  p `suffix_of` s ∧ wcand W s p ↔ p = y ∨ p `suffix_of` y ∧ wcand W y p.
Proof.
  intros (Sy & (Ly & Ny & Wy) & M). split.
  - intros (Sp & Cp). pose proof (M _ Sp Cp) as Le.
    pose proof (suffix_le _ _ _ Sp Sy Le) as Spy.
    destruct (decide (length p = length y)) as [E|].
    + left. apply suffix_length_eq; [done|lia].
    + right. split; [done|]. destruct Cp as (? & ? & ?).
      split; [lia|done].
  - intros [->|(Sp & Lp & Np & Wp)]; [done|].
    split; [by etrans|]. split; [lia|done].
Qed.

Lemma ls_words U x p :
  ls P U x → p `suffix_of` U ∧ W p ↔ p `suffix_of` x ∧ W p.
Proof.
  intros L. split.
  - intros [Sp Wp]. split; [|done]. eapply maxsuf_cover; eauto.
  - intros [Sp Wp]. split; [|done]. etrans; [done|]. apply L.
Qed.
End longest_suffix.

(** ** [connectFailureLink] computes the longest-suffix links *)

Lemma trie_of_shaped ws h paths : trie_of ws h paths → shaped ws h paths.
Proof. intros [? ? ? ?]. by split. Qed.

Lemma same_on_shape_tree h h' : same_on shape h h' → same_on tree h h'.
Proof.
  unfold same_on. intros E.
  change tree with ((λ x : _ * bool * list ascii, x.1.1) ∘ shape).
  rewrite !list_fmap_compose. by rewrite E.
Qed.

Lemma shaped_same ws h h' paths :
  same_on shape h h' → shaped ws h paths → shaped ws h' paths.
Proof.
  intros S [TI W C]. split; [|
    |done].
  - eapply trie_inv_same_tree; [|done]. by apply same_on_shape_tree.
  - intros n t nd' Lt Ln.
    destruct (same_on_lookup _ _ _ _ _ (same_on_sym _ _ _ S) Ln)
      as (nd & L & [= _ _ _ E1 E2]).
    rewrite <- E1, <- E2. by eapply W.
Qed.

Section connect.
Context (ws paths : list (list ascii)).
Local Abbreviation P := (λ t : list ascii, t ∈ paths).
Local Abbreviation W := (λ t : list ascii, t ∈ ws).

Section loop.
Context (h : list Node) (SH : shaped ws h paths).
Context (n : nat) (nd : Node) (u : list ascii) (c : ascii).
Context (Lp : paths !! n = Some (u ++ [c])) (Ln : h !! n = Some nd).
Context (Below : ∀ m y, paths !! m = Some y →
                        length y < length (u ++ [c]) → linked ws paths h m).
Context (x0 : list ascii) (Lx0 : lps P u x0).

Let TI : trie_inv h paths := sh_trie _ _ _ SH.

Lemma P_closed' : ∀ v a, P (v ++ [a]) → P v.
Proof. intros v a. apply (path_prefix_closed _ _ TI). Qed.

Lemma parentChar_n : parentChar nd = c.
Proof.
  destruct (ti_parent _ _ TI _ _ _ Lp) as (_ & _ & nd' & _ & _ & _ & L & _ & E).
  congruence.
Qed.

Lemma connect_loop_spec : ∀ fuel f x,
  paths !! f = Some x → above P x0 c x → length x < fuel →
  ∃ nd', connect_loop fuel n (Some f) h = Some (<[n := nd']> h) ∧
         shape nd' = shape nd ∧
         ((nd' = nd ∧ lps P (u ++ [c]) []) ∨
          (links_sem ws paths (u ++ [c]) (links nd') ∧
           failureLink nd' ≠ Some root)).
Proof.
  induction fuel as [|fuel IH]; intros f x Lf A Lt; [lia|].
  destruct (path_node _ _ TI _ _ Lf) as [fn Lfn].
  pose proof (lps_shorter _ _ _ Lx0) as Lx0u.
  pose proof (suffix_length _ _ (proj1 A)) as Lxx0.
  cbn [connect_loop]. rewrite Lfn. cbn. rewrite Ln. cbn.
  rewrite parentChar_n.
  destruct (children fn !! c) as [q|] eqn:Lc.
  - (* the cursor has a child for [c] *)
    rewrite (contains_lookup _ _ _ Lc).
    destruct (edge_child _ _ TI _ _ _ _ _ Lf Lfn Lc) as (g & -> & Lg).
    assert (P (x ++ [c])) as Pxc by by eapply list_elem_of_lookup_2.
    pose proof (above_found P _ _ _ A Pxc) as B.
    pose proof (lps_snoc_best _ P_closed' _ _ _ _ Lx0 B) as L.
    pose proof (lps_shorter _ _ _ L) as Lsh.
    assert (g ≠ n) as Ng.
    { intros ->. rewrite Lp in Lg. injection Lg as E. rewrite E in Lsh. lia. }
    destruct (path_node _ _ TI _ _ Lg) as [tn Ltn].
    specialize (Below g _ Lg Lsh _ _ Lg Ltn).
    rewrite decide_False in Below by by destruct x.
    destruct Below as [_ Bo].
    destruct (sh_word _ _ _ SH _ _ _ Lg Ltn) as [Wg _].
    rewrite (children_at_present _ _ _ _ _ Lfn Lc). cbn.
    rewrite (modify_Some _ _ _ _ Ln). cbn.
    set (nd2 := set_failureLink (Some g) nd).
    assert (<[n := nd2]> h !! n = Some nd2) as L2.
    { apply list_lookup_insert_eq. by eapply lookup_lt_Some. }
    rewrite L2. cbn. rewrite list_lookup_insert_ne by done.
    rewrite Ltn. cbn.
    assert (Some g ≠ Some root) as NR.
    { intros [= ->]. pose proof (ti_root _ _ TI) as R.
      rewrite R in Lg. by destruct x. }
    destruct (isWord tn) eqn:Iw.
    + rewrite (modify_Some _ _ _ _ L2). rewrite list_insert_insert_eq.
      eexists. split; [done|]. split; [done|]. right. split; [|done]. split.
      * exists g, (x ++ [c]). done.
      * cbn. exists (x ++ [c]). split; [done|].
        apply (wsuf_fl_word P); [by apply (sh_cover _ _ _ SH)|done| |].
        -- by destruct x.
        -- by apply Wg.
    + rewrite (modify_Some _ _ _ _ L2). rewrite list_insert_insert_eq.
      eexists. split; [done|]. split; [done|]. right. split; [|done]. split.
      * exists g, (x ++ [c]). done.
      * assert (¬ W (x ++ [c])) as NW.
        { intros Hw%Wg. congruence. }
        cbn. cbn in Bo. destruct (outputLink tn) as [o|].
        -- destruct Bo as (y & Ly & Wy). exists y. split; [done|].
           eapply (wsuf_fl_inherit P); eauto. by apply (sh_cover _ _ _ SH).
        -- eapply (no_wsuf_fl_inherit P); eauto. by apply (sh_cover _ _ _ SH).
  - (* no child: follow the cursor's failure link *)
    apply contains_false in Lc as Lc'. rewrite Lc'.
    assert (¬ P (x ++ [c])) as Nxc.
    { intros [m Lm]%list_elem_of_lookup.
      pose proof (child_edge _ _ TI _ _ _ _ _ Lf Lfn Lm). congruence. }
    assert (length x < length (u ++ [c])) as Lxu
      by (rewrite length_app; cbn; lia).
    specialize (Below f _ Lf Lxu _ _ Lf Lfn).
    destruct (decide (x = [])) as [->|Nx].
    + injection Below as -> _.
      exists nd. split; [by destruct fuel; rewrite list_insert_id|].
      split; [done|].
      left. split; [done|].
      eapply lps_snoc_nobest;
        [apply (path_nil_in _ _ TI)|apply P_closed'|done|].
      apply above_none; [done|]. done.
    + destruct Below as [(f' & x' & Ef & Lf' & Lx') _]. cbn in Ef.
      rewrite Ef. apply (IH f' x' Lf').
      * by eapply above_step; [apply P_closed'|..].
      * apply lps_shorter in Lx'. lia.
Qed.
End loop.

Lemma linked_other h h' m :
  h' !! m = h !! m → linked ws paths h m → linked ws paths h' m.
Proof. intros E L t nd Lt. rewrite E. by apply L. Qed.

Lemma pending_other h h' m : h' !! m = h !! m → pending h m → pending h' m.
Proof. intros E L nd. rewrite E. by apply L. Qed.

Lemma connectFailureLink_spec h n t :
  shaped ws h paths → paths !! n = Some t →
  (∀ m y, paths !! m = Some y → length y < length t → linked ws paths h m) →
  pending h n ∨ linked ws paths h n →
  ∃ nd nd', h !! n = Some nd ∧
            connectFailureLink n h = Some (<[n := nd']> h) ∧
            shape nd' = shape nd ∧ linked ws paths (<[n := nd']> h) n.
Proof.
  intros SH Lp Below Old. pose proof (sh_trie _ _ _ SH) as TI.
  destruct (path_node _ _ TI _ _ Lp) as [nd Ln].
  pose proof (lookup_lt_Some _ _ _ Ln) as Lt.
  exists nd. unfold connectFailureLink. rewrite Ln. cbn.
  destruct t as [|c u _] using rev_ind.
  - (* the root *)
    assert (n = root) as -> by (eapply path_unique; eauto using ti_root).
    rewrite (ti_root_parent _ _ TI _ Ln). exists nd.
    rewrite list_insert_id by done. split; [done|]. split; [done|].
    split; [done|]. intros t' nd' Lp' Ln'.
    assert (t' = []) as -> by congruence. assert (nd' = nd) as -> by congruence.
    rewrite decide_True by done.
    destruct Old as [Hp|Hl]; [by apply Hp|].
    specialize (Hl _ _ Lp Ln). by rewrite decide_True in Hl.
  - destruct (ti_parent _ _ TI _ _ _ Lp)
      as (p & pd & nd0 & Lu & Lpd & Lch & Ln0 & Ep & Ec).
    assert (nd0 = nd) as -> by congruence. rewrite Ep.
    rewrite (modify_Some _ _ _ _ Ln). cbn.
    set (nd1 := set_failureLink (Some root) nd).
    set (h1 := <[n := nd1]> h).
    assert (h1 !! n = Some nd1) as Ln1 by by apply list_lookup_insert_eq.
    assert (∀ x, lps P (u ++ [c]) x → x = [] →
              match outputLink nd with
              | None => no_wsuf W (u ++ [c])
              | Some o => ∃ y, paths !! o = Some y ∧ wsuf W (u ++ [c]) y
              end) as OldOl.
    { intros x Lx ->. destruct Old as [Hp|Hl].
      - specialize (Hp _ Ln). injection Hp as _ ->.
        eapply (no_wsuf_fl_nil P); [apply (sh_cover _ _ _ SH)|done].
      - specialize (Hl _ _ Lp Ln). rewrite decide_False in Hl by by destruct u.
        apply Hl. }
    assert (∀ nd', linked ws paths (<[n := nd']> h) n ↔
                   links_sem ws paths (u ++ [c]) (links nd')) as Lk.
    { intros nd'. split.
      - intros L. specialize (L _ nd' Lp).
        rewrite decide_False in L by by destruct u.
        apply L. by apply list_lookup_insert_eq.
      - intros L t' nd'' Lp'. rewrite list_lookup_insert_eq by done.
        intros [= <-]. assert (t' = u ++ [c]) as -> by congruence.
        by rewrite decide_False by by destruct u. }
    case_decide as Er.
    + (* a child of the root *)
      injection Er as ->. assert (u = []) as ->.
      { pose proof (ti_root _ _ TI). congruence. }
      exists nd1. split; [done|]. split; [done|]. split; [done|].
      apply Lk. pose proof (lps_single P (path_nil_in _ _ TI) c) as L0.
      split; [|by eapply (OldOl [])].
      exists root, []. split; [done|]. split; [apply TI|done].
    + assert (u ≠ []) as Nu.
      { intros ->. destruct Er. f_equal. eapply path_unique; eauto using ti_root. }
      assert (p ≠ n) as Npn.
      { intros ->. rewrite Lp in Lu. injection Lu as E.
        apply (f_equal length) in E. rewrite length_app in E. cbn in E. lia. }
      assert (h1 !! p = Some pd) as Lpd1
        by (unfold h1; by rewrite list_lookup_insert_ne).
      rewrite Lpd1. cbn.
      assert (length u < length (u ++ [c])) as Luc
        by (rewrite length_app; cbn; lia).
      pose proof (Below p u Lu Luc _ _ Lu Lpd) as Lkp.
      rewrite decide_False in Lkp by done.
      destruct Lkp as [(f0 & x0 & Ef & Lf0 & Lx0) _]. cbn in Ef. rewrite Ef.
      assert (shaped ws h1 paths) as SH1.
      { eapply shaped_same; [|done].
        by apply (same_on_insert shape h n (set_failureLink (Some root)) nd). }
      destruct (connect_loop_spec h1 SH1 n nd1 u c Lp Ln1) with
        (x0 := x0) (fuel := length h1) (f := f0) (x := x0)
        as (nd' & E & Sh & Cases); try done.
      { intros m y Lm Ly. apply (linked_other h); [|by eapply Below].
        apply list_lookup_insert_ne. intros ->. rewrite Lp in Lm.
        injection Lm as <-. lia. }
      { apply above_start. }
      { unfold h1. rewrite length_insert, <- (ti_len _ _ TI).
        by eapply depth_bound. }
      assert (<[n := nd']> h1 = <[n := nd']> h) as Eh
        by apply list_insert_insert_eq.
      rewrite Eh in E.
      exists nd'. split; [done|]. split; [done|]. split; [done|].
      apply Lk. destruct Cases as [[-> L0]|[L _]]; [|done].
      split; [|by eapply (OldOl [])].
      exists root, []. split; [done|]. split; [apply TI|done].
Qed.
End connect.

(** ** The automaton built by the constructor *)

Lemma assignIds_spec ws h0 paths :
  trie_of ws h0 paths →
  ∃ h, assignIds h0 = Some h ∧ same_on shape h0 h ∧ same_on links h0 h.
Proof.
  intros T. pose proof (to_trie _ _ _ T) as TI.
  destruct (traversal_spec h0 paths TI assign_id
              (λ _ _ h, same_on shape h0 h ∧ same_on links h0 h))
    with (st := 0%Z) (h := h0) as (st & h & vis & E & [S1 S2] & _).
  - intros vis st h [S _]. by apply same_on_shape_tree.
  - intros vis n t st h [S1 S2] Lp _.
    destruct (path_node _ _ TI _ _ Lp) as [nd0 L0].
    destruct (same_on_lookup _ _ _ _ _ S1 L0) as (nd & L & _).
    unfold assign_id. rewrite (modify_Some _ _ _ _ L). cbn.
    eexists _, _. split; [done|]. split.
    + eapply same_on_trans; [done|]. by apply same_on_insert.
    + eapply same_on_trans; [done|]. by apply same_on_insert.
  - done.
  - exists h. unfold assignIds. rewrite E. done.
Qed.

Lemma trie_of_same ws h h' paths :
  same_on shape h h' → same_on links h h' →
  trie_of ws h paths → trie_of ws h' paths.
Proof.
  intros S1 S2 T. destruct (shaped_same _ _ _ _ S1 (trie_of_shaped _ _ _ T)).
  split; [done..|]. intros n nd' L'.
  destruct (same_on_lookup _ _ _ _ _ (same_on_sym _ _ _ S2) L') as (nd & L & E).
  rewrite <- E. by eapply to_nolinks.
Qed.

Lemma buildTrieTree_spec words :
  ∃ h paths, buildTrieTree words [new_Node] = Some h ∧
             trie_of words h paths ∧ path_min words paths.
Proof.
  destruct (insert_all_spec words) as (h0 & paths & E & T & M).
  destruct (assignIds_spec _ _ _ T) as (h & E' & S1 & S2).
  exists h, paths. unfold buildTrieTree. rewrite E. cbn.
  split; [done|]. split; [|done]. by eapply trie_of_same.
Qed.

Lemma fillFailureLinks_spec ws h0 paths :
  trie_of ws h0 paths →
  ∃ h, fillFailureLinks h0 = Some h ∧ same_on shape h0 h ∧
       ∀ n, linked ws paths h n.
Proof.
  intros T. pose proof (to_trie _ _ _ T) as TI.
  pose proof (trie_of_shaped _ _ _ T) as SH.
  destruct (traversal_spec h0 paths TI
              (λ node (_ : unit) h, h' ← connectFailureLink node h; Some ((), h'))
              (λ vis _ h, same_on shape h0 h ∧
                          (∀ m, m ∈ vis → linked ws paths h m) ∧
                          (∀ m, pending h m ∨ linked ws paths h m)))
    with (st := ()) (h := h0) as (st & h & vis & E & (S & Lk & PL) & All).
  - intros vis st h (S & _). by apply same_on_shape_tree.
  - intros vis n t st h (S & Lk & PL) Lp Low.
    destruct (connectFailureLink_spec ws paths h n t)
      as (nd & nd' & Ln & E & Sh & Ln'); [by eapply shaped_same|done| |done|].
    { intros m y Lm Ly. apply Lk. by eapply Low. }
    rewrite E. cbn. eexists _, _. split; [done|]. split; [|split].
    + eapply same_on_trans; [done|].
      by apply (same_on_insert shape h n (λ _, nd') nd).
    + intros m Hm. destruct (decide (m = n)) as [->|Ne]; [done|].
      apply (linked_other _ _ h); [by apply list_lookup_insert_ne|].
      apply elem_of_app in Hm as [Hm| ->%list_elem_of_singleton]; [|done].
      by apply Lk.
    + intros m. destruct (decide (m = n)) as [->|Ne]; [by right|].
      destruct (PL m); [left|right].
      * apply (pending_other h); [by apply list_lookup_insert_ne|done].
      * apply (linked_other _ _ h); [by apply list_lookup_insert_ne|done].
  - split; [done|]. split; [by intros m ?%elem_of_nil|].
    intros m. left. intros nd L. by eapply to_nolinks.
  - exists h. unfold fillFailureLinks. rewrite E. split; [done|].
    split; [done|]. intros n t nd Lp. by apply (Lk _ (All _ _ Lp)).
Qed.

(** The constructor always returns, and returns an automaton whose links
    are the longest-suffix links. *)
Lemma Aho_Corasick_spec words :
  ∃ h paths, Aho_Corasick words = Some h ∧ automaton words h paths.
Proof.
  destruct (buildTrieTree_spec words) as (h1 & paths & E1 & T & M).
  destruct (fillFailureLinks_spec _ _ _ T) as (h & E & S & L).
  exists h, paths. unfold Aho_Corasick. cbn. rewrite E1. cbn.
  split; [done|]. split; [|done..].
  eapply shaped_same; [done|]. by apply trie_of_shaped.
Qed.

(** ** The scanner *)

Lemma fail_walk_unfold fuel h c node :
  fail_walk fuel h c node =
    nd ← h !! node;
    match failureLink nd with
    | None => Some node
    | Some f =>
      if contains (children nd) c then Some node
      else match fuel with
           | 0 => None
           | S fuel' => fail_walk fuel' h c f
           end
    end.
Proof. by destruct fuel. Qed.

Lemma output_walk_unfold fuel h i curr :
  output_walk fuel h i curr =
    cn ← h !! curr;
    match outputLink cn with
    | None => Some []
    | Some o =>
      match fuel with
      | 0 => None
      | S fuel' =>
        on ← h !! o;
        rest ← output_walk fuel' h i o;
        Some ((pattern on, i) :: rest)
      end
    end.
Proof. by destruct fuel. Qed.

Section scan.
Context (ws paths : list (list ascii)) (h : list Node).
Context (AU : automaton ws h paths).
Local Abbreviation P := (λ t : list ascii, t ∈ paths).
Local Abbreviation W := (λ t : list ascii, t ∈ ws).

Let SH : shaped ws h paths := au_shaped _ _ _ AU.
Let TI : trie_inv h paths := sh_trie _ _ _ SH.

Lemma P_nil : P [].
Proof. apply (path_nil_in _ _ TI). Qed.

Lemma P_closed : ∀ v a, P (v ++ [a]) → P v.
Proof. intros v a. apply (path_prefix_closed _ _ TI). Qed.

Lemma W_P : ∀ t, W t → P t.
Proof. apply (sh_cover _ _ _ SH). Qed.

Lemma root_links nd : h !! root = Some nd → links nd = (None, None).
Proof.
  intros L. pose proof (au_linked _ _ _ AU root [] nd (ti_root _ _ TI) L) as K.
  by rewrite decide_True in K.
Qed.

Lemma node_links n t nd :
  paths !! n = Some t → h !! n = Some nd → t ≠ [] →
  links_sem ws paths t (links nd).
Proof.
  intros Lp Ln N. pose proof (au_linked _ _ _ AU n t nd Lp Ln) as K.
  by rewrite decide_False in K.
Qed.

Lemma nil_links n nd :
  paths !! n = Some [] → h !! n = Some nd → links nd = (None, None).
Proof.
  intros Lp Ln. pose proof (au_linked _ _ _ AU n [] nd Lp Ln) as K.
  by rewrite decide_True in K.
Qed.

Lemma no_child_not_in n t nd c :
  paths !! n = Some t → h !! n = Some nd → children nd !! c = None →
  ¬ P (t ++ [c]).
Proof.
  intros Lp Ln Lc [m Lm]%list_elem_of_lookup.
  pose proof (child_edge _ _ TI _ _ _ _ _ Lp Ln Lm). congruence.
Qed.

(** The mismatch loop stops at the longest suffix of the current string
    that [c] extends, or at the root. *)
Lemma fail_walk_spec x0 c : ∀ fuel node x,
  paths !! node = Some x → above P x0 c x → length x ≤ fuel →
  ∃ node' x' nd',
    fail_walk fuel h c node = Some node' ∧ paths !! node' = Some x' ∧
    h !! node' = Some nd' ∧
    ((is_Some (children nd' !! c) ∧ best P c x0 x') ∨
     (children nd' !! c = None ∧ x' = [] ∧ nobest P x0 c)).
Proof.
  induction fuel as [|fuel IH]; intros node x Lp A Lt.
  - destruct x; [|cbn in Lt; lia].
    destruct (path_node _ _ TI _ _ Lp) as [nd Ln].
    pose proof (nil_links _ _ Lp Ln) as [= Ef _].
    exists node, [], nd. rewrite fail_walk_unfold, Ln. cbn. rewrite Ef.
    split; [done|]. split; [done|]. split; [done|].
    destruct (children nd !! c) as [q|] eqn:Lc.
    + left. split; [done|]. apply above_found; [done|].
      destruct (edge_child _ _ TI _ _ _ _ _ Lp Ln Lc) as (g & _ & Lg).
      by eapply list_elem_of_lookup_2.
    + right. split; [done|]. split; [done|]. apply above_none; [done|].
      by eapply (no_child_not_in _ []).
  - destruct (path_node _ _ TI _ _ Lp) as [nd Ln].
    rewrite fail_walk_unfold, Ln. cbn.
    destruct (children nd !! c) as [q|] eqn:Lc.
    + exists node, x, nd. rewrite (contains_lookup _ _ _ Lc).
      split; [by destruct (failureLink nd)|]. split; [done|]. split; [done|].
      left. split; [by rewrite Lc|]. apply above_found; [done|].
      destruct (edge_child _ _ TI _ _ _ _ _ Lp Ln Lc) as (g & _ & Lg).
      by eapply list_elem_of_lookup_2.
    + apply contains_false in Lc as Lc'. rewrite Lc'.
      pose proof (no_child_not_in _ _ _ _ Lp Ln Lc) as Nx.
      destruct (decide (x = [])) as [->|Ne].
      * pose proof (nil_links _ _ Lp Ln) as [= Ef _]. rewrite Ef.
        exists node, [], nd. split; [done|]. split; [done|]. split; [done|].
        right. split; [done|]. split; [done|]. by apply above_none.
      * destruct (node_links _ _ _ Lp Ln Ne) as [(f & x' & Ef & Lf & Lx) _].
        cbn in Ef. rewrite Ef. apply (IH f x' Lf).
        -- eapply above_step; eauto using P_closed.
        -- apply lps_shorter in Lx. lia.
Qed.

(** The output chain of a node lists the words that are non-empty proper
    suffixes of its string. *)
Lemma output_walk_spec i : ∀ fuel n y,
  paths !! n = Some y → length y ≤ fuel →
  ∃ out, output_walk fuel h i n = Some out ∧
         ∀ p e, (p, e) ∈ out ↔ e = i ∧ p `suffix_of` y ∧ wcand W y p.
Proof.
  induction fuel as [|fuel IH]; intros n y Lp Lt.
  - destruct y; [|cbn in Lt; lia].
    destruct (path_node _ _ TI _ _ Lp) as [nd Ln].
    pose proof (nil_links _ _ Lp Ln) as [= _ Eo].
    exists []. rewrite output_walk_unfold, Ln. cbn. rewrite Eo.
    split; [done|]. intros p e. split; [by intros ?%elem_of_nil|].
    intros (_ & _ & L & _). cbn in L. lia.
  - destruct (path_node _ _ TI _ _ Lp) as [nd Ln].
    rewrite output_walk_unfold, Ln. cbn.
    destruct (decide (y = [])) as [->|Ne].
    { pose proof (nil_links _ _ Lp Ln) as [= _ Eo]. rewrite Eo.
      exists []. split; [done|]. intros p e. split; [by intros ?%elem_of_nil|].
      intros (_ & _ & L & _). cbn in L. lia. }
    destruct (node_links _ _ _ Lp Ln Ne) as [_ Ho]. cbn in Ho.
    destruct (outputLink nd) as [o|].
    + destruct Ho as (y' & Lo & Hy).
      destruct (path_node _ _ TI _ _ Lo) as [on Lon]. rewrite Lon. cbn.
      pose proof Hy as (Sy & (Ly & Ny & Wy) & _).
      destruct (IH o y' Lo) as (rest & -> & Hrest); [lia|]. cbn.
      destruct (sh_word _ _ _ SH _ _ _ Lo Lon) as [W1 W2].
      rewrite (W2 (proj2 W1 Wy)).
      eexists. split; [done|]. intros p e.
      rewrite elem_of_cons, Hrest, (wsuf_chain _ _ _ p Hy).
      split.
      * intros [[= -> ->]|(-> & ?)]; auto.
      * intros (-> & [->|?]); auto.
    + exists []. split; [done|]. intros p e. split; [by intros ?%elem_of_nil|].
      intros (_ & Sp & Cp). by destruct (Ho p).
Qed.

Lemma report_spec i n y :
  paths !! n = Some y → y ≠ [] →
  ∃ out, report h i n = Some out ∧
         ∀ p e, (p, e) ∈ out ↔ e = i ∧ p ≠ [] ∧ W p ∧ p `suffix_of` y.
Proof.
  intros Lp Ne. destruct (path_node _ _ TI _ _ Lp) as [nd Ln].
  destruct (output_walk_spec i (length h) n y Lp) as (rest & E & Hrest).
  { pose proof (depth_bound _ _ TI _ _ Lp). rewrite (ti_len _ _ TI) in *. lia. }
  unfold report. rewrite Ln. cbn. rewrite E. cbn.
  eexists. split; [done|]. intros p e. rewrite elem_of_app, Hrest.
  destruct (sh_word _ _ _ SH _ _ _ Lp Ln) as [W1 W2].
  assert ((p, e) ∈ (if isWord nd then [(pattern nd, i)] else [])
          ↔ e = i ∧ p = y ∧ W y) as ->.
  { destruct (isWord nd) eqn:Iw.
    - rewrite list_elem_of_singleton, (W2 eq_refl). split.
      + intros [= -> ->]. split; [done|]. split; [done|]. by apply W1.
      + by intros (-> & -> & _).
    - split; [by intros ?%elem_of_nil|]. intros (_ & _ & Hw%W1). done. }
  split.
  - intros [(-> & -> & Wy)|(-> & Sp & (Lt & Np & Wp))]; [|done].
    split; [done|]. split; [done|]. split; [done|]. reflexivity.
  - intros (-> & Np & Wp & Sp). pose proof (suffix_length _ _ Sp).
    destruct (decide (length p = length y)) as [El|].
    + left. split; [done|].
      assert (p = y) as -> by (apply suffix_length_eq; [done|lia]). done.
    + right. split; [done|]. split; [done|]. split; [lia|done].
Qed.

(** One loop iteration keeps the current node at the longest suffix of
    the text read so far that is in the trie, prints the words ending at
    the current position, and leaves the arena untouched. *)
Lemma consume_spec U c i node x :
  paths !! node = Some x → ls P U x →
  ∃ node' x' out,
    consume h c i node = Some (h, node', out) ∧
    paths !! node' = Some x' ∧ ls P (U ++ [c]) x' ∧
    ∀ p e, (p, e) ∈ out ↔ e = i ∧ p ≠ [] ∧ W p ∧ p `suffix_of` U ++ [c].
Proof.
  intros Lp L. destruct (path_node _ _ TI _ _ Lp) as [nd Ln].
  assert (∀ n' x' nd', paths !! n' = Some x' → h !! n' = Some nd' →
            is_Some (children nd' !! c) → best P c x x' →
            ∃ n1 out,
              (contains (children nd') c = true) ∧
              (('(h1, q) ← children_at h n' c; n1 ← q;
                out ← report h1 i n1; Some (h1, n1, out))
               = Some (h, n1, out)) ∧
              paths !! n1 = Some (x' ++ [c]) ∧ ls P (U ++ [c]) (x' ++ [c]) ∧
              ∀ p e, (p, e) ∈ out ↔
                     e = i ∧ p ≠ [] ∧ W p ∧ p `suffix_of` U ++ [c]) as Go.
  { intros n' x' nd' Lp' Ln' [q Lc] B.
    destruct (edge_child _ _ TI _ _ _ _ _ Lp' Ln' Lc) as (n1 & -> & L1).
    destruct (report_spec i n1 (x' ++ [c]) L1) as (out & E & Hout);
      [by destruct x'|].
    pose proof (ls_snoc_best _ P_closed _ _ _ _ L B) as L'.
    exists n1, out. split; [by eapply contains_lookup|].
    rewrite (children_at_present _ _ _ _ _ Ln' Lc). cbn. rewrite E. cbn.
    split; [done|]. split; [done|]. split; [done|].
    intros p e. rewrite Hout.
    pose proof (ls_words P W W_P _ _ p L') as Eq. tauto. }
  unfold consume. rewrite Ln. cbn.
  destruct (children nd !! c) as [q|] eqn:Lc.
  - destruct (Go node x nd Lp Ln) as (n1 & out & -> & E & L1 & L' & Hout);
      [by rewrite Lc| |].
    { apply above_found; [apply above_start|].
      destruct (edge_child _ _ TI _ _ _ _ _ Lp Ln Lc) as (g & _ & Lg).
      by eapply list_elem_of_lookup_2. }
    exists n1, (x ++ [c]), out. done.
  - apply contains_false in Lc as ->.
    destruct (fail_walk_spec x c (length h) node x Lp (above_start _ _ _))
      as (node' & x' & nd' & -> & Lp' & Ln' & Cases).
    { pose proof (depth_bound _ _ TI _ _ Lp). rewrite (ti_len _ _ TI) in *. lia. }
    cbn. rewrite Ln'. cbn.
    destruct Cases as [[Hc B]|(Hc & -> & N)].
    + destruct (Go node' x' nd' Lp' Ln' Hc B) as (n1 & out & -> & E & L1 & L' & Hout).
      exists n1, (x' ++ [c]), out. done.
    + apply contains_false in Hc as ->. cbn.
      pose proof (ls_snoc_nobest _ P_nil P_closed _ _ _ L N) as L'.
      exists node', [], []. split; [done|]. split; [done|]. split; [done|].
      intros p e. split; [by intros ?%elem_of_nil|].
      intros (_ & Np & Wp & Sp).
      destruct (proj1 (ls_words P W W_P _ _ p L')) as [E%suffix_nil_inv _]; done.
Qed.

Lemma scan_loop_spec : ∀ rest U node x,
  paths !! node = Some x → ls P U x →
  ∃ out,
    scan_loop rest (Z.of_nat (length U)) node h = Some (out, h) ∧
    ∀ p e, (p, e) ∈ out ↔
      ∃ k, k < length rest ∧ e = Z.of_nat (length U + k) ∧
           p ≠ [] ∧ W p ∧ p `suffix_of` U ++ take (S k) rest.
Proof.
  induction rest as [|c rest IH]; intros U node x Lp L.
  - exists []. split; [done|]. intros p e. split; [by intros ?%elem_of_nil|].
    intros (k & Hk & _). cbn in Hk. lia.
  - destruct (consume_spec U c (Z.of_nat (length U)) node x Lp L)
      as (node' & x' & out1 & E1 & Lp' & L' & H1).
    destruct (IH (U ++ [c]) node' x' Lp' L') as (out2 & E2 & H2).
    rewrite length_app in E2. cbn in E2.
    replace (Z.of_nat (length U + 1)) with (Z.of_nat (length U) + 1)%Z in E2 by lia.
    exists (out1 ++ out2). cbn [scan_loop]. rewrite E1. cbn. rewrite E2. cbn.
    split; [done|]. intros p e. rewrite elem_of_app, H1, H2. split.
    + intros [(-> & Np & Wp & Sp)|(k & Hk & -> & Np & Wp & Sp)].
      * exists 0. cbn. rewrite take_0. split; [lia|]. split; [f_equal; lia|done].
      * exists (S k). cbn [length take]. split; [lia|].
        rewrite length_app in *. cbn in *. split; [f_equal; lia|].
        rewrite <- app_assoc in Sp. done.
    + intros (k & Hk & -> & Np & Wp & Sp). destruct k as [|k].
      * left. cbn in Sp. rewrite take_0 in Sp. split; [f_equal; lia|done].
      * right. exists k. cbn in Hk. split; [lia|].
        rewrite length_app. cbn. split; [f_equal; lia|].
        rewrite <- app_assoc. done.
Qed.

(** [findPatterns] returns, leaves the arena as it found it, and prints
    exactly the non-empty words that end at each position. *)
Lemma findPatterns_spec text :
  ∃ out,
    findPatterns text h = Some (out, h) ∧
    ∀ p e, (p, e) ∈ out ↔
      ∃ k, k < length text ∧ e = Z.of_nat k ∧
           p ≠ [] ∧ W p ∧ p `suffix_of` take (S k) text.
Proof.
  destruct (scan_loop_spec text [] root [] (ti_root _ _ TI) (ls_nil _ P_nil))
    as (out & E & H).
  exists out. split; [done|]. done.
Qed.
End scan.

(** ** Depth, failure chains and the reference recurrence *)

Lemma depth_from_unfold fuel h n :
  depth_from fuel h n =
    nd ← h !! n;
    match parent nd with
    | None => Some 0
    | Some p =>
      match fuel with
      | 0 => None
      | S fuel' => S <$> depth_from fuel' h p
      end
    end.
Proof. by destruct fuel. Qed.

Lemma chain_from_unfold fuel h n :
  chain_from fuel h n =
    nd ← h !! n;
    match failureLink nd with
    | None => Some 0
    | Some f =>
      match fuel with
      | 0 => None
      | S fuel' => S <$> chain_from fuel' h f
      end
    end.
Proof. by destruct fuel. Qed.

Lemma spec_cursor_unfold fuel h c cursor :
  spec_cursor fuel h c cursor =
    cn ← h !! cursor;
    if bool_decide (cursor ≠ root) && negb (contains (children cn) c) then
      match fuel with
      | 0 => None
      | S fuel' => f ← failureLink cn; spec_cursor fuel' h c f
      end
    else Some cursor.
Proof. by destruct fuel. Qed.

Lemma depth_from_path h paths :
  trie_inv h paths →
  ∀ fuel n t, paths !! n = Some t → length t ≤ fuel →
              depth_from fuel h n = Some (length t).
Proof.
  intros TI. induction fuel as [|fuel IH]; intros n t Lp Lt.
  - destruct t; [|cbn in Lt; lia].
    assert (n = root) as -> by (eapply path_unique; eauto using ti_root).
    destruct (path_node _ _ TI _ _ Lp) as [nd Ln].
    rewrite depth_from_unfold, Ln. cbn.
    by rewrite (ti_root_parent _ _ TI _ Ln).
  - destruct (path_node _ _ TI _ _ Lp) as [nd Ln].
    rewrite depth_from_unfold, Ln. cbn.
    destruct t as [|c u _] using rev_ind.
    + assert (n = root) as -> by (eapply path_unique; eauto using ti_root).
      by rewrite (ti_root_parent _ _ TI _ Ln).
    + destruct (ti_parent _ _ TI _ _ _ Lp) as (p & _ & nd' & Lu & _ & _ & Ln' & Ep & _).
      assert (nd' = nd) as -> by congruence. rewrite Ep.
      rewrite length_app in *. cbn in *.
      rewrite (IH p u Lu) by lia. cbn. f_equal. lia.
Qed.

Lemma depth_path h paths n t :
  trie_inv h paths → paths !! n = Some t → depth h n = Some (length t).
Proof.
  intros TI Lp. apply (depth_from_path _ _ TI _ _ _ Lp).
  pose proof (depth_bound _ _ TI _ _ Lp). rewrite (ti_len _ _ TI) in *. lia.
Qed.

Section automaton_facts.
Context (ws paths : list (list ascii)) (h : list Node).
Context (AU : automaton ws h paths).
Local Abbreviation P := (λ t : list ascii, t ∈ paths).
Local Abbreviation W := (λ t : list ascii, t ∈ ws).

Let SH : shaped ws h paths := au_shaped _ _ _ AU.
Let TI : trie_inv h paths := sh_trie _ _ _ SH.
Let Pn : P [] := path_nil_in _ _ TI.
Let Pc : ∀ v a, P (v ++ [a]) → P v := path_prefix_closed _ _ TI.
Let WP : ∀ t, W t → P t := sh_cover _ _ _ SH.

Lemma root_node : ∃ rd, h !! root = Some rd ∧ links rd = (None, None).
Proof.
destruct (path_node _ _ TI _ _ (ti_root _ _ TI)) as [rd L].
exists rd. split; [done|]. by eapply root_links.
Qed.

Lemma nonroot_parent n nd :
h !! n = Some nd → n ≠ root →
∃ u c p pd, paths !! n = Some (u ++ [c]) ∧ parent nd = Some p ∧
            parentChar nd = c ∧ paths !! p = Some u ∧ h !! p = Some pd.
Proof.
intros Ln Nr. destruct (node_path _ _ TI _ _ Ln) as [t Lp].
destruct t as [|c u _] using rev_ind.
{ destruct Nr. eapply path_unique; eauto using ti_root. }
destruct (ti_parent _ _ TI _ _ _ Lp) as (p & pd & nd' & Lu & Lpd & _ & Ln' & Ep & Ec).
assert (nd' = nd) as -> by congruence. by exists u, c, p, pd.
Qed.

Lemma fl_of n nd t :
paths !! n = Some t → h !! n = Some nd → t ≠ [] →
∃ f x fd, failureLink nd = Some f ∧ paths !! f = Some x ∧
          h !! f = Some fd ∧ lps P t x.
Proof.
intros Lp Ln Ne.
destruct (node_links _ _ _ AU _ _ _ Lp Ln Ne) as [(f & x & Ef & Lf & Lx) _].
destruct (path_node _ _ TI _ _ Lf) as [fd Lfd]. by exists f, x, fd.
Qed.

Lemma fl_is n nd t x f :
paths !! n = Some t → h !! n = Some nd → lps P t x → paths !! f = Some x →
failureLink nd = Some f.
Proof.
intros Lp Ln Lx Lf.
destruct (fl_of n nd t Lp Ln) as (f' & x' & _ & -> & Lf' & _ & Lx').
{ intros ->. apply lps_shorter in Lx. cbn in Lx. lia. }
f_equal. assert (x' = x) as -> by by eapply maxsuf_unique.
by eapply path_unique.
Qed.

Lemma ol_is_some n nd t y o :
paths !! n = Some t → h !! n = Some nd → wsuf W t y → paths !! o = Some y →
outputLink nd = Some o.
Proof.
intros Lp Ln Hy Lo.
assert (t ≠ []) as Ne.
{ intros ->. destruct Hy as (_ & (L & _) & _). cbn in L. lia. }
destruct (node_links _ _ _ AU _ _ _ Lp Ln Ne) as [_ Ho]. cbn in Ho.
destruct (outputLink nd) as [o'|].
- destruct Ho as (y' & Lo' & Hy'). f_equal.
  assert (y' = y) as -> by by eapply maxsuf_unique. by eapply path_unique.
- destruct Hy as (S & C & _). by destruct (Ho y).
Qed.

Lemma ol_is_none n nd t :
paths !! n = Some t → h !! n = Some nd → no_wsuf W t → outputLink nd = None.
Proof.
intros Lp Ln N. destruct (decide (t = [])) as [->|Ne].
{ by pose proof (nil_links _ _ _ AU _ _ Lp Ln) as [= _ ->]. }
destruct (node_links _ _ _ AU _ _ _ Lp Ln Ne) as [_ Ho]. cbn in Ho.
destruct (outputLink nd) as [o'|]; [|done].
destruct Ho as (y' & Lo' & (S & C & _)). by destruct (N y').
Qed.

Lemma spec_cursor_fail_walk c : ∀ fuel n x,
paths !! n = Some x → spec_cursor fuel h c n = fail_walk fuel h c n.
Proof.
induction fuel as [|fuel IH]; intros n x Lp;
  destruct (path_node _ _ TI _ _ Lp) as [nd Ln];
  rewrite spec_cursor_unfold, fail_walk_unfold, Ln; cbn.
- destruct (decide (x = [])) as [->|Ne].
  + assert (n = root) as -> by (eapply path_unique; eauto using ti_root).
    pose proof (nil_links _ _ _ AU _ _ Lp Ln) as [= -> _].
    by rewrite bool_decide_eq_false_2 by by intros [].
  + destruct (fl_of n nd x Lp Ln Ne) as (f & x' & _ & -> & _).
    rewrite bool_decide_eq_true_2.
    2:{ intros ->. pose proof (ti_root _ _ TI). congruence. }
    by destruct (contains (children nd) c).
- destruct (decide (x = [])) as [->|Ne].
  + assert (n = root) as -> by (eapply path_unique; eauto using ti_root).
    pose proof (nil_links _ _ _ AU _ _ Lp Ln) as [= -> _].
    by rewrite bool_decide_eq_false_2 by by intros [].
  + destruct (fl_of n nd x Lp Ln Ne) as (f & x' & _ & -> & Lf & _).
    rewrite bool_decide_eq_true_2.
    2:{ intros ->. pose proof (ti_root _ _ TI). congruence. }
    destruct (contains (children nd) c); [done|]. cbn. by eapply IH.
Qed.

(** The failure link of a node is what the reference recurrence yields. *)
Lemma failure_recurrence n nd :
h !! n = Some nd → n ≠ root →
∃ p, parent nd = Some p ∧
     (p = root → failureLink nd = Some root) ∧
     (p ≠ root →
      spec_failureLink h p (parentChar nd) = Some (failureLink nd)).
Proof.
intros Ln Nr.
destruct (nonroot_parent n nd Ln Nr) as (u & c & p & pd & Lp & Ep & Ec & Lu & Lpd).
exists p. split; [done|]. split.
- intros ->. assert (u = []) as ->.
  { pose proof (ti_root _ _ TI). congruence. }
  apply (fl_is n nd [c] [] root Lp Ln); [by apply lps_single|apply TI].
- intros Np. assert (u ≠ []) as Nu.
  { intros ->. destruct Np. eapply path_unique; eauto using ti_root. }
  destruct (fl_of p pd u Lu Lpd Nu) as (f0 & x0 & fd0 & Ef0 & Lf0 & _ & Lx0).
  unfold spec_failureLink. rewrite Lpd. cbn. rewrite Ef0. cbn. rewrite Ec.
  rewrite (spec_cursor_fail_walk c _ _ _ Lf0).
  destruct (fail_walk_spec _ _ _ AU x0 c (length h) f0 x0 Lf0 (above_start _ _ _))
    as (node' & x' & nd' & -> & Lp' & Ln' & Cases).
  { pose proof (depth_bound _ _ TI _ _ Lf0). rewrite (ti_len _ _ TI) in *. lia. }
  cbn. rewrite Ln'. cbn. destruct Cases as [[[q Lc] B]|(Lc & -> & N)].
  + rewrite Lc. f_equal.
    destruct (edge_child _ _ TI _ _ _ _ _ Lp' Ln' Lc) as (g & -> & Lg).
    symmetry. apply (fl_is n nd _ (x' ++ [c]) g Lp Ln); [|done].
    by eapply lps_snoc_best.
  + rewrite Lc. f_equal. symmetry.
    apply (fl_is n nd _ [] root Lp Ln); [|apply TI]. by eapply lps_snoc_nobest.
Qed.

(** The output link of a node follows from its failure link. *)
Lemma output_rule n nd :
h !! n = Some nd → n ≠ root →
∃ f fd, failureLink nd = Some f ∧ h !! f = Some fd ∧
        (f ≠ root →
         outputLink nd = if isWord fd then Some f else outputLink fd) ∧
        (f = root → outputLink nd = None) ∧
        ([] ∉ ws →
         outputLink nd = if isWord fd then Some f else outputLink fd).
Proof.
intros Ln Nr.
destruct (nonroot_parent n nd Ln Nr) as (u & c & p & pd & Lp & _).
destruct (fl_of n nd _ Lp Ln) as (f & x & fd & Ef & Lf & Lfd & Lx);
  [by destruct u|].
destruct (sh_word _ _ _ SH _ _ _ Lf Lfd) as [W1 _].
assert (f ≠ root →
        outputLink nd = if isWord fd then Some f else outputLink fd) as R1.
{ intros Nf. assert (x ≠ []) as Nx.
  { intros ->. destruct Nf. eapply path_unique; eauto using ti_root. }
  destruct (isWord fd) eqn:Iw.
  - apply (ol_is_some n nd _ x f Lp Ln); [|done].
    apply (wsuf_fl_word P); [done..|]. by apply W1.
  - assert (¬ W x) as NW by (intros ?%W1; congruence).
    destruct (node_links _ _ _ AU _ _ _ Lf Lfd Nx) as [_ Ho]. cbn in Ho.
    destruct (outputLink fd) as [o|].
    + destruct Ho as (y & Lo & Hy). apply (ol_is_some n nd _ y o Lp Ln); [|done].
      by apply (wsuf_fl_inherit P _ WP _ x).
    + apply (ol_is_none n nd _ Lp Ln).
      by apply (no_wsuf_fl_inherit P _ WP _ x). }
assert (f = root → outputLink nd = None) as R2.
{ intros ->. assert (x = []) as ->.
  { pose proof (ti_root _ _ TI). congruence. }
  apply (ol_is_none n nd _ Lp Ln). by apply (no_wsuf_fl_nil P _ WP). }
exists f, fd. split; [done|]. split; [done|]. split; [done|]. split; [done|].
intros Nw. destruct (decide (f = root)) as [->|Nf]; [|by apply R1].
rewrite R2 by done. assert (x = []) as ->.
{ pose proof (ti_root _ _ TI). congruence. }
destruct (isWord fd) eqn:Iw; [by destruct Nw; apply W1|].
by pose proof (root_links _ _ _ AU _ Lfd) as [= _ ->].
Qed.

(** Failure links go strictly up. *)
Lemma failure_depth n nd :
h !! n = Some nd → n ≠ root →
∃ f d d', failureLink nd = Some f ∧ depth h n = Some d ∧
          depth h f = Some d' ∧ d' < d.
Proof.
intros Ln Nr.
destruct (nonroot_parent n nd Ln Nr) as (u & c & p & pd & Lp & _).
destruct (fl_of n nd _ Lp Ln) as (f & x & fd & Ef & Lf & Lfd & Lx);
  [by destruct u|].
exists f, (length (u ++ [c])), (length x). split; [done|].
split; [by eapply depth_path|]. split; [by eapply depth_path|].
by eapply lps_shorter.
Qed.

Lemma chain_from_bound : ∀ fuel n t,
paths !! n = Some t → length t ≤ fuel →
∃ k, chain_from fuel h n = Some k ∧ k ≤ length t.
Proof.
induction fuel as [|fuel IH]; intros n t Lp Lt;
  destruct (path_node _ _ TI _ _ Lp) as [nd Ln];
  rewrite chain_from_unfold, Ln; cbn.
- destruct t; [|cbn in Lt; lia].
  pose proof (nil_links _ _ _ AU _ _ Lp Ln) as [= -> _]. exists 0. done.
- destruct (decide (t = [])) as [->|Ne].
  { pose proof (nil_links _ _ _ AU _ _ Lp Ln) as [= -> _]. exists 0. done. }
  destruct (fl_of n nd t Lp Ln Ne) as (f & x & _ & -> & Lf & _ & Lx).
  apply lps_shorter in Lx.
  destruct (IH f x Lf) as (k & -> & Hk); [lia|]. exists (S k). cbn.
  split; [done|lia].
Qed.

Lemma depth_inv n d : depth h n = Some d → ∃ t, paths !! n = Some t ∧ length t = d.
Proof.
intros D. destruct (h !! n) as [nd|] eqn:Ln.
- destruct (node_path _ _ TI _ _ Ln) as [t Lp]. exists t. split; [done|].
  rewrite (depth_path _ _ _ _ TI Lp) in D. by injection D.
- unfold depth in D. by rewrite depth_from_unfold, Ln in D.
Qed.

(** The scanner's mismatch loop needs at most [depth n] iterations. *)
Lemma fail_walk_fuel n d c :
depth h n = Some d → is_Some (fail_walk d h c n).
Proof.
intros (t & Lp & <-)%depth_inv.
destruct (fail_walk_spec _ _ _ AU t c (length t) n t Lp (above_start _ _ _))
  as (node' & _ & _ & -> & _); done.
Qed.

(** So does the loop of [connectFailureLink]. *)
Lemma connect_loop_fuel n nd p pd d :
h !! n = Some nd → parent nd = Some p → p ≠ root → h !! p = Some pd →
depth h n = Some d →
is_Some (connect_loop d n (failureLink pd) h).
Proof.
intros Ln Ep Np Lpd (t & Lp & <-)%depth_inv.
assert (n ≠ root) as Nr.
{ intros ->. rewrite (ti_root_parent _ _ TI _ Ln) in Ep. done. }
destruct (nonroot_parent n nd Ln Nr) as (u & c & p' & pd' & Lp' & Ep' & Ec & Lu & Lpd').
assert (p' = p) as -> by congruence. assert (pd' = pd) as -> by congruence.
assert (t = u ++ [c]) as -> by congruence.
assert (u ≠ []) as Nu.
{ intros ->. destruct Np. eapply path_unique; eauto using ti_root. }
destruct (fl_of p pd u Lu Lpd Nu) as (f0 & x0 & _ & -> & Lf0 & _ & Lx0).
destruct (connect_loop_spec ws paths h SH n nd u c Lp Ln) with
  (x0 := x0) (fuel := length (u ++ [c])) (f := f0) (x := x0)
  as (nd' & -> & _); try done.
- intros m y _ _. apply (au_linked _ _ _ AU).
- apply above_start.
- apply lps_shorter in Lx0. rewrite length_app. cbn. lia.
Qed.

(** A symbol that starts no word has no edge out of the root. *)
Lemma root_no_child c rd :
(∀ w, w ∈ ws → head w ≠ Some c) → h !! root = Some rd →
children rd !! c = None.
Proof.
intros Hc L. destruct (children rd !! c) as [q|] eqn:Lc; [|done]. exfalso.
destruct (edge_child _ _ TI _ _ _ _ _ (ti_root _ _ TI) L Lc) as (g & _ & Lg).
destruct (au_min _ _ _ AU [c]) as [|(w & Hw & [k ->])];
  [by eapply list_elem_of_lookup_2|done|].
by destruct (Hc _ Hw).
Qed.

Lemma consume_root_miss c i :
(∀ w, w ∈ ws → head w ≠ Some c) →
fail_walk 0 h c root = Some root ∧ consume h c i root = Some (h, root, []).
Proof.
intros Hc. destruct root_node as (rd & L & [= Ef _]).
pose proof (root_no_child c rd Hc L) as Lc.
assert (∀ fuel, fail_walk fuel h c root = Some root) as Fw.
{ intros fuel. rewrite fail_walk_unfold, L. cbn. by rewrite Ef. }
split; [done|]. unfold consume. rewrite L. cbn.
apply contains_false in Lc. rewrite Lc, Fw. cbn. rewrite L. cbn.
by rewrite Lc.
Qed.
End automaton_facts.

(** ** Building and scanning, end to end *)

Lemma naive_spec words text p i :
  (p, i) ∈ naive words text ↔
  ∃ j, j < length text ∧ i = Z.of_nat j ∧ p ∈ words ∧
       take (length p) (drop j text) = p.
Proof.
  unfold naive. rewrite list_elem_of_bind. split.
  - intros (j & (q & Hq & Hw)%list_elem_of_bind & [_ Hj]%elem_of_seq).
    unfold occurs_at in Hq. case_bool_decide as E; [|by apply elem_of_nil in Hq].
    apply list_elem_of_singleton in Hq as [= -> ->]. exists j. done.
  - intros (j & Hj & -> & Hw & E). exists j. split; [|apply elem_of_seq; lia].
    apply list_elem_of_bind. exists p. split; [|done].
    unfold occurs_at. rewrite bool_decide_eq_true_2 by done.
    by apply list_elem_of_singleton.
Qed.

Lemma suffix_take_occurs (p text : list ascii) k :
  k < length text →
  p `suffix_of` take (S k) text ↔
  ∃ j, j + length p = S k ∧ take (length p) (drop j text) = p.
Proof.
  intros Hk. split.
  - intros [pre E]. exists (length pre).
    assert (length pre + length p = S k) as El.
    { rewrite <- length_app, <- E. apply length_take_le. lia. }
    split; [done|]. rewrite take_drop_commute, El, E.
    by rewrite drop_app_length.
  - intros (j & El & E). exists (take j text).
    rewrite <- El, <- take_take_drop. by rewrite E.
Qed.

Lemma scan_spec words text :
  ∃ h out, Aho_Corasick words = Some h ∧
           findPatterns text h = Some (out, h) ∧ scan words text = Some out ∧
           ∀ p e, (p, e) ∈ out ↔
             ∃ k, k < length text ∧ e = Z.of_nat k ∧ p ≠ [] ∧ p ∈ words ∧
                  p `suffix_of` take (S k) text.
Proof.
  destruct (Aho_Corasick_spec words) as (h & paths & E & AU).
  destruct (findPatterns_spec _ _ _ AU text) as (out & E' & H).
  exists h, out. unfold scan. rewrite E. cbn. rewrite E'. done.
Qed.

Lemma foldl_insert_None words :
  foldl (λ acc w, acc ≫= insert w) None words = None.
Proof. by induction words. Qed.

Lemma insert_all_cons w words h :
  insert_all (w :: words) h = insert w h ≫= insert_all words.
Proof.
  unfold insert_all. cbn. destruct (insert w h); [done|].
  apply foldl_insert_None.
Qed.

Lemma insert_all_dedup words : ∀ seen h paths,
  trie_of seen h paths →
  insert_all (dedup_from seen words) h = insert_all words h.
Proof.
  induction words as [|w words IH]; intros seen h paths T; [done|].
  cbn [dedup_from]. rewrite (insert_all_cons w words). case_bool_decide as Hw.
  - rewrite (insert_present _ _ _ _ T Hw). cbn. by eapply IH.
  - rewrite insert_all_cons.
    destruct (insert_spec _ w _ _ T) as (h' & paths' & -> & T' & _). cbn.
    by eapply IH.
Qed.

(** * The claims *)

(** C1.  For every list of non-empty patterns and every text, the
    (pattern, start index) pairs reported by building the automaton and
    scanning the text, with start = end - length(pattern) + 1, are exactly
    the pairs found by the brute-force reference that tries every pattern
    at every position of the text. *)
Theorem C1_scan_equals_brute_force (words : list (list ascii))
    (text : list ascii) :
  Forall (λ p, p ≠ []) words →
  ∃ out, scan words text = Some out ∧
         ∀ p i, (p, i) ∈ start_of <$> out ↔ (p, i) ∈ naive words text.
Proof.
  intros Ne. destruct (scan_spec words text) as (h & out & _ & _ & E & H).
  exists out. split; [done|]. intros p i.
  rewrite naive_spec, list_elem_of_fmap. split.
  - intros ([p' e] & [= -> ->] & (k & Hk & -> & Np & Hw & Sp)%H). cbn.
    apply (suffix_take_occurs _ _ _ Hk) in Sp as (j & El & Ej).
    assert (0 < length p') as Lp by (destruct p'; [done|cbn; lia]).
    exists j. split; [lia|]. split; [lia|done].
  - intros (j & Hj & -> & Hw & Ej).
    assert (p ≠ []) as Np by by eapply (proj1 (Forall_forall _ _) Ne).
    assert (0 < length p) as Lp by (destruct p; [done|cbn; lia]).
    assert (j + length p ≤ length text) as Le.
    { apply (f_equal length) in Ej. rewrite length_take, length_drop in Ej. lia. }
    exists (p, Z.of_nat (j + length p - 1)). split.
    + unfold start_of. cbn. f_equal. lia.
    + apply H. exists (j + length p - 1). split; [lia|]. split; [done|].
      split; [done|]. split; [done|].
      apply suffix_take_occurs; [lia|]. exists j. split; [lia|done].
Qed.

(** C1 at the patterns "he", "she", "his", "hers" and the text
    "ahishers". *)
Lemma C1_witness :
  Forall (λ p, p ≠ []) (chars <$> ["he"; "she"; "his"; "hers"]%string) ∧
  ∃ out,
    scan (chars <$> ["he"; "she"; "his"; "hers"]%string) (chars "ahishers")
      = Some out ∧
    ∀ p i, (p, i) ∈ start_of <$> out ↔
           (p, i) ∈ naive (chars <$> ["he"; "she"; "his"; "hers"]%string)
                          (chars "ahishers").
Proof.
  split.
  - repeat constructor; discriminate.
  - apply (C1_scan_equals_brute_force
             (chars <$> ["he"; "she"; "his"; "hers"]%string) (chars "ahishers")).
    repeat constructor; discriminate.
Defined.

(** C2 (as stated, fails).  The claim says that building from a list that
    holds an empty string fails; the constructor has no such check and
    returns an automaton for the list of "he" and the empty string. *)
Lemma C2_counterexample :
  ∃ h rd, Aho_Corasick [chars "he"; []] = Some h ∧
          length h = 3 ∧ h !! root = Some rd ∧ isWord rd = true.
Proof. vm_compute. eexists _, _. repeat split. Qed.

(** C2 (amended).  For every pattern list that contains an empty string,
    construction does not fail: the constructor returns the complete
    automaton, in which the empty pattern has marked the root as a word
    whose pattern is the empty string. *)
Theorem C2_empty_pattern_marks_root (words : list (list ascii)) :
  [] ∈ words →
  ∃ h rd, Aho_Corasick words = Some h ∧ h !! root = Some rd ∧
          isWord rd = true ∧ pattern rd = [].
Proof.
  intros Hw. destruct (Aho_Corasick_spec words) as (h & paths & E & AU).
  pose proof (au_shaped _ _ _ AU) as SH. pose proof (sh_trie _ _ _ SH) as TI.
  destruct (path_node _ _ TI _ _ (ti_root _ _ TI)) as [rd L].
  destruct (sh_word _ _ _ SH _ _ _ (ti_root _ _ TI) L) as [W1 W2].
  exists h, rd. split; [done|]. split; [done|].
  split; [by apply W1|]. by apply W2, W1.
Qed.

(** C2 (amended) at the list of "he" and the empty string. *)
Lemma C2_witness :
  [] ∈ [chars "he"; []] ∧
  ∃ h rd, Aho_Corasick [chars "he"; []] = Some h ∧ h !! root = Some rd ∧
          isWord rd = true ∧ pattern rd = [].
Proof.
  split.
  - apply elem_of_cons. right. apply elem_of_cons. by left.
  - apply (C2_empty_pattern_marks_root [chars "he"; []]).
    apply elem_of_cons. right. apply elem_of_cons. by left.
Defined.

(** C3.  After construction, every node whose parent is the root has the
    root as failure link, and the failure link of every other non-root
    node, with parent [p] and edge symbol [c], is the pointer the
    reference recurrence computes from [p] and [c]. *)
Theorem C3_failure_links_follow_recurrence (words : list (list ascii)) :
  ∃ h, Aho_Corasick words = Some h ∧
       ∀ n nd, h !! n = Some nd → n ≠ root →
         ∃ p, parent nd = Some p ∧
              (p = root → failureLink nd = Some root) ∧
              (p ≠ root →
               spec_failureLink h p (parentChar nd) = Some (failureLink nd)).
Proof.
  destruct (Aho_Corasick_spec words) as (h & paths & E & AU).
  exists h. split; [done|]. intros n nd. by eapply failure_recurrence.
Qed.

(** C4 (as stated, fails).  With the empty string among the patterns the
    root is a word; the node of "a" has the root as failure link, yet its
    output link is null and not its failure link. *)
Lemma C4_counterexample :
  ∃ h nd fd, Aho_Corasick [[]; chars "a"] = Some h ∧
             h !! 1 = Some nd ∧ failureLink nd = Some root ∧
             h !! root = Some fd ∧ isWord fd = true ∧ outputLink nd = None.
Proof. vm_compute. eexists _, _, _. repeat split. Qed.

(** C4 (amended).  After construction, for every non-root node [n]: when
    its failure link is not the root, [n.outputLink] is [n.failureLink] if
    that node is a word and [n.failureLink.outputLink] otherwise; when its
    failure link is the root, [n.outputLink] is null.  The two cases follow
    the one rule of the claim whenever no pattern is empty. *)
Theorem C4_output_links_follow_failure_links (words : list (list ascii)) :
  ∃ h, Aho_Corasick words = Some h ∧
       ∀ n nd, h !! n = Some nd → n ≠ root →
         ∃ f fd, failureLink nd = Some f ∧ h !! f = Some fd ∧
                 (f ≠ root →
                  outputLink nd = if isWord fd then Some f else outputLink fd) ∧
                 (f = root → outputLink nd = None) ∧
                 ([] ∉ words →
                  outputLink nd = if isWord fd then Some f else outputLink fd).
Proof.
  destruct (Aho_Corasick_spec words) as (h & paths & E & AU).
  exists h. split; [done|]. intros n nd. by eapply output_rule.
Qed.

(** C5 (as stated, fails).  The claim makes the root its own failure
    link; the constructor leaves the root's failure link null. *)
Lemma C5_counterexample :
  ∃ h rd, Aho_Corasick [chars "a"] = Some h ∧ h !! root = Some rd ∧
          failureLink rd = None.
Proof. vm_compute. eexists _, _. repeat split. Qed.

(** C5 (amended).  After construction, the failure link of every non-root
    node points to a node of strictly smaller depth, and the failure link
    of the root is null. *)
Theorem C5_failure_links_decrease_depth (words : list (list ascii)) :
  ∃ h, Aho_Corasick words = Some h ∧
       (∃ rd, h !! root = Some rd ∧ failureLink rd = None) ∧
       ∀ n nd, h !! n = Some nd → n ≠ root →
         ∃ f d d', failureLink nd = Some f ∧ depth h n = Some d ∧
                   depth h f = Some d' ∧ d' < d.
Proof.
  destruct (Aho_Corasick_spec words) as (h & paths & E & AU).
  exists h. split; [done|]. split.
  - destruct (root_node _ _ _ AU) as (rd & L & [= Ef _]). by exists rd.
  - intros n nd. by eapply failure_depth.
Qed.

(** C6.  Building from "he", "she", "his", "hers" and scanning "ahishers"
    reports exactly ("his",1,3), ("she",3,5), ("he",4,5), ("hers",4,7),
    as (pattern, start, end) with 0-based inclusive indices. *)
Theorem C6_overlap_scenario :
  matches (chars <$> ["he"; "she"; "his"; "hers"]%string) (chars "ahishers")
  = Some [(chars "his", 1, 3); (chars "she", 3, 5);
          (chars "he", 4, 5); (chars "hers", 4, 7)]%Z.
Proof. vm_compute. reflexivity. Qed.

(** C7.  Inserting a pattern that is already in the list changes nothing
    in the trie; hence the trie, the automaton and the matches on every
    text are those of the list without its repeated entries; in
    particular "he", "he", "she" and "he", "she" build the same automaton. *)
Theorem C7_duplicate_patterns_are_idempotent (words : list (list ascii)) :
  (∃ h, insert_all words [new_Node] = Some h ∧
        ∀ w, w ∈ words → insert w h = Some h) ∧
  insert_all (dedup words) [new_Node] = insert_all words [new_Node] ∧
  Aho_Corasick (dedup words) = Aho_Corasick words ∧
  (∀ text, scan (dedup words) text = scan words text) ∧
  (∀ text, scan (chars <$> ["he"; "he"; "she"]%string) text
           = scan (chars <$> ["he"; "she"]%string) text).
Proof.
  assert (∀ ws, insert_all (dedup ws) [new_Node] = insert_all ws [new_Node]) as D.
  { intros ws. apply (insert_all_dedup ws [] _ [[]]), trie_of_init. }
  assert (∀ ws, Aho_Corasick (dedup ws) = Aho_Corasick ws) as A.
  { intros ws. unfold Aho_Corasick, buildTrieTree. cbn. by rewrite D. }
  assert (∀ ws text, scan (dedup ws) text = scan ws text) as S.
  { intros ws text. unfold scan. by rewrite A. }
  split; [|split; [done|split; [done|split; [done|]]]].
  - destruct (insert_all_spec words) as (h & paths & E & T & _).
    exists h. split; [done|]. intros w Hw. by eapply insert_present.
  - intros text. rewrite <- (S (chars <$> ["he"; "he"; "she"]%string)).
    by replace (dedup (chars <$> ["he"; "he"; "she"]%string))
      with (chars <$> ["he"; "she"]%string) by by vm_compute.
Qed.

(** C8.  When the scanner is at the root and reads a symbol that starts no
    pattern, the mismatch loop makes no iteration, the current node stays
    the root, nothing is printed, and the loop goes on with the position
    advanced by exactly one. *)
Theorem C8_root_self_loop (words : list (list ascii)) (c : ascii) (i : Z)
    (rest : list ascii) :
  (∀ w, w ∈ words → head w ≠ Some c) →
  ∃ h, Aho_Corasick words = Some h ∧
       fail_walk 0 h c root = Some root ∧
       consume h c i root = Some (h, root, []) ∧
       scan_loop (c :: rest) i root h = scan_loop rest (i + 1)%Z root h.
Proof.
  intros Hc. destruct (Aho_Corasick_spec words) as (h & paths & E & AU).
  destruct (consume_root_miss _ _ _ AU c i Hc) as [Fw Co].
  exists h. split; [done|]. split; [done|]. split; [done|].
  cbn [scan_loop]. rewrite Co. cbn.
  by destruct (scan_loop rest (i + 1)%Z root h) as [[outs h2]|].
Qed.

(** C8 at the patterns "he", "she" and the symbol 'x'. *)
Lemma C8_witness :
  (∀ w, w ∈ chars <$> ["he"; "she"]%string → head w ≠ Some "x"%char) ∧
  ∃ h, Aho_Corasick (chars <$> ["he"; "she"]%string) = Some h ∧
       fail_walk 0 h "x"%char root = Some root ∧
       consume h "x"%char 0%Z root = Some (h, root, []) ∧
       scan_loop ("x"%char :: chars "he") 0%Z root h
         = scan_loop (chars "he") (0 + 1)%Z root h.
Proof.
  assert (∀ w, w ∈ chars <$> ["he"; "she"]%string → head w ≠ Some "x"%char) as H.
  { intros w [->|[->|?%elem_of_nil]%elem_of_cons]%elem_of_cons; done. }
  split; [exact H|].
  apply (C8_root_self_loop (chars <$> ["he"; "she"]%string) "x"%char 0%Z
           (chars "he") H).
Defined.

(** C9.  Scanning leaves every node of the automaton as it was: the arena
    returned by [findPatterns] is the arena it was given, so any number of
    scans can follow one another and a repeated scan prints the same
    sequence. *)
Theorem C9_scan_leaves_automaton_unchanged (words : list (list ascii)) :
  ∃ h, Aho_Corasick words = Some h ∧
       (∀ text, ∃ out, findPatterns text h = Some (out, h)) ∧
       ∀ t1 t2, ∃ o1 o2,
         ('(a, h1) ← findPatterns t1 h;
          '(b, h2) ← findPatterns t2 h1;
          '(a', h3) ← findPatterns t1 h2;
          Some (a, b, a', h3)) = Some (o1, o2, o1, h).
Proof.
  destruct (Aho_Corasick_spec words) as (h & paths & E & AU).
  exists h. split; [done|]. split.
  - intros text. destruct (findPatterns_spec _ _ _ AU text) as (out & -> & _).
    by exists out.
  - intros t1 t2.
    destruct (findPatterns_spec _ _ _ AU t1) as (o1 & E1 & _).
    destruct (findPatterns_spec _ _ _ AU t2) as (o2 & E2 & _).
    exists o1, o2. rewrite E1. cbn. rewrite E2. cbn. by rewrite E1.
Qed.

(** C10.  After construction the root's failure and output links are
    null; every other node's failure link leads to a strictly shallower
    node, so the chain of failure links from a node reaches the null link
    of the root within depth-of-the-node steps, and the failure-chain
    loops of the scanner and of [connectFailureLink] end within that many
    iterations. *)
Theorem C10_failure_chains_end_at_root (words : list (list ascii)) :
  ∃ h, Aho_Corasick words = Some h ∧
       (∃ rd, h !! root = Some rd ∧
              failureLink rd = None ∧ outputLink rd = None) ∧
       (∀ n nd, h !! n = Some nd → n ≠ root →
          ∃ f d d', failureLink nd = Some f ∧ depth h n = Some d ∧
                    depth h f = Some d' ∧ d' < d) ∧
       (∀ n nd, h !! n = Some nd →
          ∃ d k, depth h n = Some d ∧ chain_length h n = Some k ∧ k ≤ d) ∧
       (∀ n d c, depth h n = Some d → is_Some (fail_walk d h c n)) ∧
       (∀ n nd p pd d,
          h !! n = Some nd → parent nd = Some p → p ≠ root →
          h !! p = Some pd → depth h n = Some d →
          is_Some (connect_loop d n (failureLink pd) h)).
Proof.
  destruct (Aho_Corasick_spec words) as (h & paths & E & AU).
  pose proof (sh_trie _ _ _ (au_shaped _ _ _ AU)) as TI.
  exists h. split; [done|]. split; [|split; [|split; [|split]]].
  - destruct (root_node _ _ _ AU) as (rd & L & [= Ef Eo]). by exists rd.
  - intros n nd. by eapply failure_depth.
  - intros n nd Ln. destruct (node_path _ _ TI _ _ Ln) as [t Lp].
    destruct (chain_from_bound _ _ _ AU (length h) n t Lp) as (k & Ek & Hk).
    { pose proof (depth_bound _ _ TI _ _ Lp). rewrite (ti_len _ _ TI) in *. lia. }
    exists (length t), k. split; [by eapply depth_path|done].
  - intros n d c. by eapply fail_walk_fuel.
  - intros n nd p pd d. by eapply connect_loop_fuel.
Qed.

(** * Further properties of the code *)

(** ** The trie *)

Lemma spell_from_unfold fuel h n :
  spell_from fuel h n =
    nd ← h !! n;
    match parent nd with
    | None => Some []
    | Some p =>
      match fuel with
      | 0 => None
      | S fuel' => u ← spell_from fuel' h p; Some (u ++ [parentChar nd])
      end
    end.
Proof. by destruct fuel. Qed.

Lemma elem_of_prefixes (t w : list ascii) : t ∈ prefixes w ↔ t `prefix_of` w.
Proof.
  unfold prefixes. rewrite list_elem_of_fmap. split.
  - intros (k & -> & _). apply prefix_take.
  - intros [r ->]. exists (length t). split; [by rewrite take_app_length|].
    apply elem_of_seq. rewrite length_app. lia.
Qed.

Lemma elem_of_prefix_set (t : list ascii) words :
  t ∈ prefix_set words ↔ t = [] ∨ ∃ w, w ∈ words ∧ t `prefix_of` w.
Proof.
  unfold prefix_set. rewrite elem_of_list_to_set, elem_of_cons, list_elem_of_bind.
  setoid_rewrite elem_of_prefixes. split.
  - intros [->|(w & ? & ?)]; [by left|right; by exists w].
  - intros [->|(w & ? & ?)]; [by left|right; by exists w].
Qed.

Section trie_reading.
Context (h : list Node) (paths : list (list ascii)) (TI : trie_inv h paths).

Lemma spell_from_path : ∀ fuel n t,
  paths !! n = Some t → length t ≤ fuel → spell_from fuel h n = Some t.
Proof.
  induction fuel as [|fuel IH]; intros n t Lp Lt.
  - destruct t; [|cbn in Lt; lia].
    assert (n = root) as -> by (eapply path_unique; eauto using ti_root).
    destruct (path_node _ _ TI _ _ Lp) as [nd Ln].
    rewrite spell_from_unfold, Ln. cbn.
    by rewrite (ti_root_parent _ _ TI _ Ln).
  - destruct (path_node _ _ TI _ _ Lp) as [nd Ln].
    rewrite spell_from_unfold, Ln. cbn.
    destruct t as [|c u _] using rev_ind.
    + assert (n = root) as -> by (eapply path_unique; eauto using ti_root).
      by rewrite (ti_root_parent _ _ TI _ Ln).
    + destruct (ti_parent _ _ TI _ _ _ Lp)
        as (p & _ & nd' & Lu & _ & _ & Ln' & Ep & Ec).
      assert (nd' = nd) as -> by congruence. rewrite Ep, Ec.
      rewrite length_app in Lt. cbn in Lt.
      by rewrite (IH p u Lu) by lia.
Qed.

Lemma spell_path n t : paths !! n = Some t → spell h n = Some t.
Proof.
  intros Lp. apply spell_from_path; [done|].
  pose proof (depth_bound _ _ TI _ _ Lp). rewrite (ti_len _ _ TI) in *. lia.
Qed.

Lemma spell_inv n t : spell h n = Some t → paths !! n = Some t.
Proof.
  intros E. destruct (h !! n) as [nd|] eqn:Ln.
  - destruct (node_path _ _ TI _ _ Ln) as [t' Lp].
    rewrite (spell_path _ _ Lp) in E. congruence.
  - unfold spell in E. by rewrite spell_from_unfold, Ln in E.
Qed.

Lemma walk_path : ∀ s n pre m,
  paths !! n = Some pre → walk h n s = Some m ↔ paths !! m = Some (pre ++ s).
Proof.
  induction s as [|c s IH]; intros n pre m Lp;
    destruct (path_node _ _ TI _ _ Lp) as [nd Ln]; cbn; rewrite Ln; cbn.
  - rewrite app_nil_r. split.
    + by intros [= <-].
    + intros Lm. f_equal. by eapply path_unique.
  - destruct (children nd !! c) as [q|] eqn:Lc; cbn.
    + destruct (edge_child _ _ TI _ _ _ _ _ Lp Ln Lc) as (a & -> & La). cbn.
      rewrite (IH a (pre ++ [c]) m La). by rewrite <- app_assoc.
    + split; [done|]. intros Lm. exfalso.
      assert (pre ++ [c] ∈ paths) as [a La]%list_elem_of_lookup.
      { apply (path_prefixes _ _ TI _ s). rewrite <- app_assoc.
        by eapply list_elem_of_lookup_2. }
      pose proof (child_edge _ _ TI _ _ _ _ _ Lp Ln La). congruence.
Qed.

Lemma walk_root s m : walk h root s = Some m ↔ paths !! m = Some s.
Proof. apply (walk_path s root [] m), TI. Qed.

Lemma walk_in s : is_Some (walk h root s) ↔ s ∈ paths.
Proof.
  rewrite list_elem_of_lookup. split.
  - intros [m Hm]. exists m. by apply walk_root.
  - intros [m Hm]. exists m. by apply walk_root.
Qed.
End trie_reading.

Lemma maxsuf_ext (Q Q' : list ascii → Prop) s t :
  (∀ y, Q y ↔ Q' y) → maxsuf Q s t → maxsuf Q' s t.
Proof.
  intros E (S & Qt & M). split; [done|]. split; [by apply E|].
  intros t' S' Q't'. apply M; [done|]. by apply E.
Qed.

Lemma automaton_paths words h paths t :
  automaton words h paths →
  t ∈ paths ↔ t = [] ∨ ∃ w, w ∈ words ∧ t `prefix_of` w.
Proof.
  intros AU. pose proof (au_shaped _ _ _ AU) as SH.
  pose proof (sh_trie _ _ _ SH) as TI. split.
  - apply (au_min _ _ _ AU).
  - intros [->|(w & Hw & [r ->])]; [apply (path_nil_in _ _ TI)|].
    apply (path_prefixes _ _ TI _ r), (sh_cover _ _ _ SH), Hw.
Qed.

Lemma length_bind_prefix_tails (words : list (list ascii)) :
  length (words ≫= λ w, (λ k, take k w) <$> seq 1 (length w))
  = sum_list (length <$> words).
Proof.
  induction words as [|w words IH]; [done|].
  rewrite bind_cons, length_app, length_fmap, length_seq, IH. done.
Qed.

(** X2.  The trie holds exactly the prefixes of the patterns: a string
    leads from the root to a node if and only if it is empty or a prefix
    of some pattern; the node it leads to spells that string back through
    its parent links, is marked as a word exactly when the string is one
    of the patterns, and then stores it as its pattern. *)
Theorem X2_trie_holds_the_prefixes (words : list (list ascii)) :
  ∃ h, Aho_Corasick words = Some h ∧
       ∀ s, (is_Some (walk h root s) ↔
             s = [] ∨ ∃ w, w ∈ words ∧ s `prefix_of` w) ∧
            ∀ n, walk h root s = Some n →
              spell h n = Some s ∧
              ∃ nd, h !! n = Some nd ∧ (isWord nd = true ↔ s ∈ words) ∧
                    (isWord nd = true → pattern nd = s).
Proof.
  destruct (Aho_Corasick_spec words) as (h & paths & E & AU).
  pose proof (au_shaped _ _ _ AU) as SH. pose proof (sh_trie _ _ _ SH) as TI.
  exists h. split; [done|]. intros s. split.
  - rewrite (walk_in _ _ TI). apply (automaton_paths _ _ _ _ AU).
  - intros n Lp%(walk_root _ _ TI). split; [by eapply spell_path|].
    destruct (path_node _ _ TI _ _ Lp) as [nd Ln]. exists nd.
    split; [done|]. by apply (sh_word _ _ _ SH n).
Qed.

(** X3.  The arena holds one node per distinct prefix of the patterns
    (the empty prefix is the root) and nothing else, so at most one node
    more than the total length of the patterns. *)
Theorem X3_one_node_per_distinct_prefix (words : list (list ascii)) :
  ∃ h, Aho_Corasick words = Some h ∧
       length h = size (prefix_set words) ∧
       1 ≤ length h ≤ 1 + sum_list (length <$> words).
Proof.
  destruct (Aho_Corasick_spec words) as (h & paths & E & AU).
  pose proof (au_shaped _ _ _ AU) as SH. pose proof (sh_trie _ _ _ SH) as TI.
  exists h. split; [done|]. rewrite <- (ti_len _ _ TI). split; [|split].
  - rewrite <- (size_list_to_set (C := gset (list ascii)) paths) by apply TI.
    f_equal. apply set_eq. intros t.
    rewrite elem_of_list_to_set, elem_of_prefix_set.
    apply (automaton_paths _ _ _ _ AU).
  - pose proof (lookup_lt_Some _ _ _ (ti_root _ _ TI)). lia.
  - rewrite <- length_bind_prefix_tails.
    change (length paths ≤
      length ([] :: (words ≫= λ w, (λ k, take k w) <$> seq 1 (length w)))).
    apply submseteq_length, NoDup_submseteq; [apply TI|].
    intros t [->|(w & Hw & [r ->])]%(automaton_paths _ _ _ _ AU); [left|].
    destruct t as [|a t]; [left|right].
    apply list_elem_of_bind. exists (a :: t ++ r). split; [|done].
    apply list_elem_of_fmap. exists (length (a :: t)). split.
    + change (a :: t ++ r) with ((a :: t) ++ r). by rewrite take_app_length.
    + apply elem_of_seq. cbn. rewrite length_app. lia.
Qed.

(** X4.  The cells form a tree rooted at address 0: the root has no
    parent; every other node is the child of its parent under its
    [parentChar]; every entry of a [children] map is a non-null pointer to
    a node whose [parent] and [parentChar] name that edge; and every cell
    is reached from the root by exactly the string its parent links
    spell. *)
Theorem X4_nodes_form_a_tree (words : list (list ascii)) :
  ∃ h, Aho_Corasick words = Some h ∧
       (∃ rd, h !! root = Some rd ∧ parent rd = None) ∧
       (∀ n nd, h !! n = Some nd → n ≠ root →
          ∃ p pd, parent nd = Some p ∧ h !! p = Some pd ∧
                  children pd !! parentChar nd = Some (Some n)) ∧
       (∀ p pd c q, h !! p = Some pd → children pd !! c = Some q →
          ∃ n nd, q = Some n ∧ h !! n = Some nd ∧
                  parent nd = Some p ∧ parentChar nd = c) ∧
       (∀ n nd, h !! n = Some nd →
          ∃ s, spell h n = Some s ∧ walk h root s = Some n) ∧
       (∀ s n, walk h root s = Some n → spell h n = Some s).
Proof.
  destruct (Aho_Corasick_spec words) as (h & paths & E & AU).
  pose proof (au_shaped _ _ _ AU) as SH. pose proof (sh_trie _ _ _ SH) as TI.
  exists h. split; [done|]. split; [|split; [|split; [|split]]].
  - destruct (path_node _ _ TI _ _ (ti_root _ _ TI)) as [rd L].
    exists rd. split; [done|]. by apply (ti_root_parent _ _ TI).
  - intros n nd Ln Nr.
    destruct (nonroot_parent _ _ _ AU n nd Ln Nr)
      as (u & c & p & pd & Lp & Ep & Ec & Lu & Lpd).
    exists p, pd. split; [done|]. split; [done|]. rewrite Ec.
    by eapply child_edge.
  - intros p pd c q Lpd Lc.
    destruct (ti_edge _ _ TI _ _ _ _ Lpd Lc) as (n & u & -> & Lu & Ln).
    destruct (ti_parent _ _ TI _ _ _ Ln) as (p' & _ & nd & Lu' & _ & _ & Lnd & Ep & Ec).
    assert (p' = p) as -> by by eapply path_unique.
    by exists n, nd.
  - intros n nd Ln. destruct (node_path _ _ TI _ _ Ln) as [s Lp].
    exists s. split; [by eapply spell_path|by apply (walk_root _ _ TI)].
  - intros s n Lp%(walk_root _ _ TI). by eapply spell_path.
Qed.

(** X5.  The failure link of a node is the longest proper suffix of its
    string that the trie holds: for a node spelling the non-empty string
    [t], [failureLink] points to the node that spells the longest proper
    suffix of [t] reachable from the root (the root when only the empty
    suffix is). *)
Theorem X5_failure_link_is_longest_proper_suffix (words : list (list ascii)) :
  ∃ h, Aho_Corasick words = Some h ∧
       ∀ n nd t, h !! n = Some nd → spell h n = Some t → t ≠ [] →
         ∃ f x, failureLink nd = Some f ∧ spell h f = Some x ∧
                maxsuf (λ y, length y < length t ∧ is_Some (walk h root y)) t x.
Proof.
  destruct (Aho_Corasick_spec words) as (h & paths & E & AU).
  pose proof (au_shaped _ _ _ AU) as SH. pose proof (sh_trie _ _ _ SH) as TI.
  exists h. split; [done|]. intros n nd t Ln Lp%(spell_inv _ _ TI) Ne.
  destruct (fl_of _ _ _ AU n nd t Lp Ln Ne) as (f & x & fd & Ef & Lf & _ & Lx).
  exists f, x. split; [done|]. split; [by eapply spell_path|].
  eapply maxsuf_ext; [|exact Lx]. intros y. cbn.
  by rewrite (walk_in _ _ TI).
Qed.

(** X6.  The output link of a node leads to the longest proper suffix of
    its string that is a non-empty pattern, and is null exactly when no
    proper suffix is one. *)
Theorem X6_output_link_is_longest_suffix_pattern (words : list (list ascii)) :
  ∃ h, Aho_Corasick words = Some h ∧
       ∀ n nd t, h !! n = Some nd → spell h n = Some t →
         match outputLink nd with
         | Some o => ∃ y, spell h o = Some y ∧ wsuf (.∈ words) t y
         | None => no_wsuf (.∈ words) t
         end.
Proof.
  destruct (Aho_Corasick_spec words) as (h & paths & E & AU).
  pose proof (au_shaped _ _ _ AU) as SH. pose proof (sh_trie _ _ _ SH) as TI.
  exists h. split; [done|]. intros n nd t Ln Lp%(spell_inv _ _ TI).
  destruct (decide (t = [])) as [->|Ne].
  - pose proof (nil_links _ _ _ AU _ _ Lp Ln) as [= _ ->].
    intros y _ (L & _). cbn in L. lia.
  - destruct (node_links _ _ _ AU _ _ _ Lp Ln Ne) as [_ Ho]. cbn in Ho.
    destruct (outputLink nd) as [o|]; [|done].
    destruct Ho as (y & Lo & Hy). exists y. split; [by eapply spell_path|done].
Qed.

(** ** The order of the matches *)

Lemma StronglySorted_before_NoDup (l : list (list ascii * Z)) :
  StronglySorted before l → NoDup l.
Proof.
  induction 1 as [|x l _ IH Hx]; constructor; [|done].
  intros Hin. rewrite Forall_forall in Hx. destruct (Hx _ Hin) as [?|[_ ?]]; lia.
Qed.

Section scan_order.
Context (ws paths : list (list ascii)) (h : list Node).
Context (AU : automaton ws h paths).

Let SH : shaped ws h paths := au_shaped _ _ _ AU.
Let TI : trie_inv h paths := sh_trie _ _ _ SH.

Lemma output_walk_sorted i : ∀ fuel n y out,
  paths !! n = Some y → length y ≤ fuel →
  output_walk fuel h i n = Some out → StronglySorted before out.
Proof.
  induction fuel as [|fuel IH]; intros n y out Lp Lt;
    destruct (path_node _ _ TI _ _ Lp) as [nd Ln];
    rewrite output_walk_unfold, Ln; cbn.
  - destruct y; [|cbn in Lt; lia].
    pose proof (nil_links _ _ _ AU _ _ Lp Ln) as [= _ ->].
    intros [= <-]. constructor.
  - destruct (decide (y = [])) as [->|Ne].
    { pose proof (nil_links _ _ _ AU _ _ Lp Ln) as [= _ ->].
      intros [= <-]. constructor. }
    destruct (node_links _ _ _ AU _ _ _ Lp Ln Ne) as [_ Ho]. cbn in Ho.
    destruct (outputLink nd) as [o|]; [|intros [= <-]; constructor].
    destruct Ho as (y' & Lo & Hy).
    destruct (path_node _ _ TI _ _ Lo) as [on Lon]. rewrite Lon. cbn.
    pose proof Hy as (Sy & (Ly & Ny & Wy) & _).
    destruct (output_walk_spec _ _ _ AU i fuel o y' Lo) as (rest & Er & Hr);
      [lia|].
    rewrite Er. cbn. intros [= <-].
    destruct (sh_word _ _ _ SH _ _ _ Lo Lon) as [W1 W2].
    rewrite (W2 (proj2 W1 Wy)).
    constructor; [by eapply (IH o y'); [|lia|]|].
    apply Forall_forall. intros [p e] (-> & _ & (Lp' & _))%Hr.
    right. done.
Qed.

Lemma report_sorted i n y out :
  paths !! n = Some y → report h i n = Some out → StronglySorted before out.
Proof.
  intros Lp. destruct (path_node _ _ TI _ _ Lp) as [nd Ln].
  assert (length y ≤ length h) as Lt.
  { pose proof (depth_bound _ _ TI _ _ Lp). rewrite (ti_len _ _ TI) in *. lia. }
  destruct (output_walk_spec _ _ _ AU i (length h) n y Lp Lt) as (rest & Er & Hr).
  unfold report. rewrite Ln. cbn. rewrite Er. cbn. intros [= <-].
  apply StronglySorted_app_2.
  - intros x1 [p e] H1 (-> & _ & (Lp' & _))%Hr.
    destruct (isWord nd) eqn:Iw; [|by apply elem_of_nil in H1].
    apply list_elem_of_singleton in H1 as ->. right. cbn.
    destruct (sh_word _ _ _ SH _ _ _ Lp Ln) as [_ W2]. by rewrite (W2 Iw).
  - destruct (isWord nd); repeat constructor.
  - by eapply output_walk_sorted.
Qed.

Lemma consume_sorted c i node x h1 n1 out :
  paths !! node = Some x → consume h c i node = Some (h1, n1, out) →
  StronglySorted before out.
Proof.
  intros Lp. destruct (path_node _ _ TI _ _ Lp) as [nd Ln].
  assert (∀ n' x' nd' (h' : list Node) m o,
            paths !! n' = Some x' → h !! n' = Some nd' →
            ('(h2, q) ← children_at h n' c; n2 ← q;
             out ← report h2 i n2; Some (h2, n2, out)) = Some (h', m, o) →
            StronglySorted before o) as Go.
  { intros n' x' nd' h' m o Lp' Ln'. unfold children_at. rewrite Ln'. cbn.
    destruct (children nd' !! c) as [q|] eqn:Lc; cbn; [|done].
    destruct (edge_child _ _ TI _ _ _ _ _ Lp' Ln' Lc) as (g & -> & Lg). cbn.
    destruct (report h i g) as [o'|] eqn:Er; cbn; [|done].
    intros [= <- <- <-]. by eapply report_sorted. }
  unfold consume. rewrite Ln. cbn.
  destruct (contains (children nd) c); [by eapply Go|].
  destruct (fail_walk_spec _ _ _ AU x c (length h) node x Lp (above_start _ _ _))
    as (node' & x' & nd' & -> & Lp' & Ln' & _).
  { pose proof (depth_bound _ _ TI _ _ Lp). rewrite (ti_len _ _ TI) in *. lia. }
  cbn. rewrite Ln'. cbn.
  destruct (contains (children nd') c); cbn; [by eapply Go|].
  intros [= <- <- <-]. constructor.
Qed.

Lemma scan_loop_sorted : ∀ rest U node x out h',
  paths !! node = Some x → ls (.∈ paths) U x →
  scan_loop rest (Z.of_nat (length U)) node h = Some (out, h') →
  StronglySorted before out.
Proof.
  induction rest as [|c rest IH]; intros U node x out h' Lp L.
  - intros [= <- <-]. constructor.
  - destruct (consume_spec _ _ _ AU U c (Z.of_nat (length U)) node x Lp L)
      as (node' & x' & out1 & E1 & Lp' & L' & H1).
    destruct (scan_loop_spec _ _ _ AU rest (U ++ [c]) node' x' Lp' L')
      as (out2 & E2 & H2).
    pose proof (IH (U ++ [c]) node' x' out2 h Lp' L' E2) as S2.
    rewrite length_app in E2. cbn in E2.
    replace (Z.of_nat (length U + 1)) with (Z.of_nat (length U) + 1)%Z in E2 by lia.
    cbn [scan_loop]. rewrite E1. cbn. rewrite E2. cbn. intros [= <- <-].
    apply StronglySorted_app_2;
      [|apply (consume_sorted _ _ _ _ _ _ _ Lp E1)|done].
    intros [p1 e1] [p2 e2] (-> & _)%H1 (k & _ & -> & _)%H2.
    left. cbn. rewrite length_app. cbn. lia.
Qed.
End scan_order.

Lemma scan_sorted words text out :
  scan words text = Some out → StronglySorted before out.
Proof.
  destruct (Aho_Corasick_spec words) as (h & paths & E & AU).
  pose proof (sh_trie _ _ _ (au_shaped _ _ _ AU)) as TI.
  unfold scan, findPatterns. rewrite E. cbn.
  destruct (scan_loop text 0%Z root h) as [[o h']|] eqn:Es; cbn; [|done].
  intros [= <-].
  apply (scan_loop_sorted _ _ _ AU text [] root [] o h'
           (ti_root _ _ TI) (ls_nil _ (path_nil_in _ _ TI)) Es).
Qed.

(** X7.  The matches are reported in order of their end index, and at
    one end index from the longest pattern to the shortest; no match is
    reported twice. *)
Theorem X7_matches_come_in_order (words : list (list ascii))
    (text : list ascii) :
  ∃ out, scan words text = Some out ∧
         StronglySorted before out ∧ NoDup out.
Proof.
  destruct (scan_spec words text) as (h & out & _ & _ & E & _).
  exists out. split; [done|].
  pose proof (scan_sorted _ _ _ E) as S.
  split; [done|]. by apply StronglySorted_before_NoDup.
Qed.

(** X8.  What a scan prints, order included, depends only on the set of
    non-empty patterns: two pattern lists with the same non-empty entries
    print the same sequence on every text, whatever the order of
    insertion, however often a pattern is repeated, and whether or not
    the empty string is among them. *)
Theorem X8_output_depends_on_the_pattern_set
    (words words' : list (list ascii)) (text : list ascii) :
  (∀ w, w ≠ [] → w ∈ words ↔ w ∈ words') →
  scan words text = scan words' text.
Proof.
  intros Eq.
  destruct (scan_spec words text) as (h & out & _ & _ & E & H).
  destruct (scan_spec words' text) as (h' & out' & _ & _ & E' & H').
  rewrite E, E'. f_equal.
  apply (StronglySorted_unique_strong before).
  - intros [p1 e1] [p2 e2] _ _ [?|[? ?]] [?|[? ?]]; cbn in *; lia.
  - by eapply scan_sorted.
  - by eapply scan_sorted.
  - apply NoDup_Permutation.
    + eapply StronglySorted_before_NoDup, scan_sorted, E.
    + eapply StronglySorted_before_NoDup, scan_sorted, E'.
    + intros [p e]. rewrite H, H'. split.
      * intros (k & ? & ? & Np & Hw & ?). exists k.
        split; [done|]. split; [done|]. split; [done|].
        split; [|done]. by apply (Eq p Np).
      * intros (k & ? & ? & Np & Hw & ?). exists k.
        split; [done|]. split; [done|]. split; [done|].
        split; [|done]. by apply (Eq p Np).
Qed.

(** X8 at "a", "ab", "" against "ab", "a", "ab" on the text "cabab". *)
Lemma X8_witness :
  (∀ w, w ≠ [] → w ∈ [chars "a"; chars "ab"; []]
                 ↔ w ∈ [chars "ab"; chars "a"; chars "ab"]) ∧
  scan [chars "a"; chars "ab"; []] (chars "cabab")
  = scan [chars "ab"; chars "a"; chars "ab"] (chars "cabab").
Proof.
  assert (∀ w, w ≠ [] → w ∈ [chars "a"; chars "ab"; []]
                        ↔ w ∈ [chars "ab"; chars "a"; chars "ab"]) as H.
  { intros w Nw. rewrite !elem_of_cons, !elem_of_nil. split.
    - intros [?|[?|[?|[]]]]; auto; done.
    - intros [?|[?|[?|[]]]]; auto. }
  split; [exact H|].
  apply (X8_output_depends_on_the_pattern_set
           [chars "a"; chars "ab"; []] [chars "ab"; chars "a"; chars "ab"]
           (chars "cabab") H).
Defined.

(** ** The scanner's state and its work *)

(** X1.  On the empty text the scan returns at once and reports nothing,
    whatever the patterns, the empty pattern included. *)
Theorem X1_empty_text_has_no_match (words : list (list ascii)) :
  scan words [] = Some [].
Proof.
  destruct (Aho_Corasick_spec words) as (h & paths & E & AU).
  unfold scan. by rewrite E.
Qed.

Lemma fail_hops_unfold fuel h c node :
  fail_hops fuel h c node =
    nd ← h !! node;
    match failureLink nd with
    | None => Some (node, 0)
    | Some f =>
      if contains (children nd) c then Some (node, 0)
      else match fuel with
           | 0 => None
           | S fuel' => '(n, j) ← fail_hops fuel' h c f; Some (n, S j)
           end
    end.
Proof. by destruct fuel. Qed.

(** The counter changes nothing: the counting loop stops where
    [fail_walk] stops. *)
Lemma fail_hops_walk h c : ∀ fuel node,
  fst <$> fail_hops fuel h c node = fail_walk fuel h c node.
Proof.
  induction fuel as [|fuel IH]; intros node;
    rewrite fail_hops_unfold, fail_walk_unfold;
    destruct (h !! node) as [nd|]; cbn; try done;
    destruct (failureLink nd) as [f|]; try done;
    destruct (contains (children nd) c); try done.
  rewrite <- IH. by destruct (fail_hops fuel h c f) as [[n j]|].
Qed.

Section scan_state.
Context (ws paths : list (list ascii)) (h : list Node).
Context (AU : automaton ws h paths).

Let SH : shaped ws h paths := au_shaped _ _ _ AU.
Let TI : trie_inv h paths := sh_trie _ _ _ SH.

Lemma final_node_spec : ∀ rest U node x i,
  paths !! node = Some x → ls (.∈ paths) U x →
  ∃ n x', final_node rest i node h = Some n ∧ paths !! n = Some x' ∧
          ls (.∈ paths) (U ++ rest) x'.
Proof.
  induction rest as [|c rest IH]; intros U node x i Lp L.
  - exists node, x. rewrite app_nil_r. done.
  - destruct (consume_spec _ _ _ AU U c i node x Lp L)
      as (node' & x' & out1 & E1 & Lp' & L' & _).
    destruct (IH (U ++ [c]) node' x' (i + 1)%Z Lp' L') as (n & x'' & E & Ln & L'').
    exists n, x''. cbn [final_node]. rewrite E1. cbn.
    rewrite <- app_assoc in L''. done.
Qed.

Lemma fail_hops_spec c : ∀ fuel node x,
  paths !! node = Some x → length x ≤ fuel →
  ∃ n' x' j, fail_hops fuel h c node = Some (n', j) ∧
             paths !! n' = Some x' ∧ length x' + j ≤ length x.
Proof.
  induction fuel as [|fuel IH]; intros node x Lp Lt;
    destruct (path_node _ _ TI _ _ Lp) as [nd Ln];
    rewrite fail_hops_unfold, Ln; cbn.
  - destruct x; [|cbn in Lt; lia].
    pose proof (nil_links _ _ _ AU _ _ Lp Ln) as [= -> _].
    exists node, [], 0. done.
  - destruct (decide (x = [])) as [->|Ne].
    { pose proof (nil_links _ _ _ AU _ _ Lp Ln) as [= -> _].
      exists node, [], 0. done. }
    destruct (fl_of _ _ _ AU node nd x Lp Ln Ne) as (f & y & _ & -> & Lf & _ & Ly).
    apply lps_shorter in Ly.
    destruct (contains (children nd) c).
    { exists node, x, 0. split; [done|]. split; [done|lia]. }
    destruct (IH f y Lf) as (n' & x' & j & -> & Lp' & Lj); [lia|].
    exists n', x', (S j). cbn. split; [done|]. split; [done|lia].
Qed.

(** Consuming a symbol moves the scanner at most one level down, and one
    level up for every failure link it follows. *)
Lemma consume_hops_spec c i node x :
  paths !! node = Some x →
  ∃ j n2 x2 out,
    consume_hops h c node = Some j ∧ consume h c i node = Some (h, n2, out) ∧
    paths !! n2 = Some x2 ∧ length x2 + j ≤ length x + 1.
Proof.
  intros Lp. destruct (path_node _ _ TI _ _ Lp) as [nd Ln].
  assert (∀ n' x' nd', paths !! n' = Some x' → h !! n' = Some nd' →
            contains (children nd') c = true →
            ∃ n2 out,
              ('(h1, q) ← children_at h n' c; n1 ← q;
               out ← report h1 i n1; Some (h1, n1, out)) = Some (h, n2, out) ∧
              paths !! n2 = Some (x' ++ [c])) as Go.
  { intros n' x' nd' Lp' Ln' [q Lc]%contains_true.
    destruct (edge_child _ _ TI _ _ _ _ _ Lp' Ln' Lc) as (g & -> & Lg).
    destruct (report_spec _ _ _ AU i g (x' ++ [c]) Lg) as (out & E & _);
      [by destruct x'|].
    exists g, out. rewrite (children_at_present _ _ _ _ _ Ln' Lc). cbn.
    by rewrite E. }
  unfold consume_hops, consume. rewrite Ln. cbn.
  destruct (contains (children nd) c) eqn:Ec.
  - destruct (Go node x nd Lp Ln Ec) as (n2 & out & -> & L2).
    exists 0, n2, (x ++ [c]), out. rewrite length_app. cbn.
    split; [done|]. split; [done|]. split; [done|lia].
  - destruct (fail_hops_spec c (length h) node x Lp) as (n' & x' & j & Eh & Lp' & Lj).
    { pose proof (depth_bound _ _ TI _ _ Lp). rewrite (ti_len _ _ TI) in *. lia. }
    pose proof (fail_hops_walk h c (length h) node) as Ew.
    rewrite Eh in Ew. cbn in Ew. rewrite <- Ew, Eh. cbn.
    destruct (path_node _ _ TI _ _ Lp') as [nd' Ln']. rewrite Ln'. cbn.
    destruct (contains (children nd') c) eqn:Ec'; cbn.
    + destruct (Go n' x' nd' Lp' Ln' Ec') as (n2 & out & -> & L2).
      exists j, n2, (x' ++ [c]), out. rewrite length_app. cbn.
      split; [done|]. split; [done|]. split; [done|lia].
    + exists j, n', x', []. split; [done|]. split; [done|]. split; [done|lia].
Qed.

Lemma scan_hops_spec : ∀ rest i node x,
  paths !! node = Some x →
  ∃ k, scan_hops rest i node h = Some k ∧ k ≤ length x + length rest.
Proof.
  induction rest as [|c rest IH]; intros i node x Lp.
  - exists 0. split; [done|lia].
  - destruct (consume_hops_spec c i node x Lp)
      as (j & n2 & x2 & out & Ej & Ec & L2 & Lj).
    destruct (IH (i + 1)%Z n2 x2 L2) as (k & Ek & Lk).
    exists (j + k). cbn [scan_hops]. rewrite Ej. cbn. rewrite Ec. cbn.
    rewrite Ek. cbn. split; [done|]. cbn. lia.
Qed.
End scan_state.

(** X9.  When the scan of a text ends, the scanner stands on the node
    that spells the longest suffix of the text that leads from the root
    into the trie, that is, the longest suffix that is a prefix of some
    pattern (the root when none is). *)
Theorem X9_scanner_tracks_longest_suffix (words : list (list ascii))
    (text : list ascii) :
  ∃ h n x, Aho_Corasick words = Some h ∧
           final_node text 0%Z root h = Some n ∧ spell h n = Some x ∧
           maxsuf (λ y, is_Some (walk h root y)) text x.
Proof.
  destruct (Aho_Corasick_spec words) as (h & paths & E & AU).
  pose proof (sh_trie _ _ _ (au_shaped _ _ _ AU)) as TI.
  destruct (final_node_spec _ _ _ AU text [] root [] 0%Z)
    as (n & x & En & Ln & L); [apply TI|apply ls_nil, (path_nil_in _ _ TI)|].
  exists h, n, x. split; [done|]. split; [done|].
  split; [by eapply spell_path|].
  eapply maxsuf_ext; [|exact L]. intros y. cbn. by rewrite (walk_in _ _ TI).
Qed.

(** X10.  Over a whole scan the mismatch loop follows at most as many
    failure links as the text has symbols: the fallback work is linear in
    the text, whatever the patterns. *)
Theorem X10_failure_hops_are_linear (words : list (list ascii))
    (text : list ascii) :
  ∃ h k, Aho_Corasick words = Some h ∧
         scan_hops text 0%Z root h = Some k ∧ k ≤ length text.
Proof.
  destruct (Aho_Corasick_spec words) as (h & paths & E & AU).
  pose proof (sh_trie _ _ _ (au_shaped _ _ _ AU)) as TI.
  destruct (scan_hops_spec _ _ _ AU text 0%Z root [] (ti_root _ _ TI))
    as (k & Ek & Lk).
  exists h, k. done.
Qed.

(** ** The numbering of the nodes *)




(** A traversal whose visits leave a field alone leaves it alone. *)
Section traversal_frame.
Context {A St : Type} (f : Node → A).
Context (visit : nat → St → list Node → option (St * list Node)).
Context (visit_f : ∀ n st h st' h',
  visit n st h = Some (st', h') → same_on f h h').


End traversal_frame.





(** The traversal visits every node exactly once, and no node before a
    shallower one. *)
Section traversal_order.
Context (h0 : list Node) (paths : list (list ascii)).
Context (TI : trie_inv h0 paths).
Context {St : Type} (visit : nat → St → list Node → option (St * list Node)).
Context (G : list nat → St → list Node → Prop).
Context (G_tree : ∀ vis st h, G vis st h → same_on tree h0 h).
Context (visit_ok : ∀ vis n t st h,
  G vis st h → paths !! n = Some t → n ∉ vis →
  ∃ st' h', visit n st h = Some (st', h') ∧ G (vis ++ [n]) st' h').

Lemma kids_elem n t y :
  paths !! n = Some t → y ∈ kids h0 n →
  ∃ c g, y = Some g ∧ paths !! g = Some (t ++ [c]).
Proof.
  intros L Hy. unfold kids in Hy.
  destruct (h0 !! n) as [nd|] eqn:Ln; [|by apply elem_of_nil in Hy].
  apply list_elem_of_fmap in Hy as ([c q] & -> & Hc%elem_of_map_to_list).
  destruct (edge_child _ _ TI _ _ _ _ _ L Ln Hc) as (g & -> & Lg).
  by exists c, g.
Qed.




End traversal_order.



(** ** Destruction *)

Lemma clear_loop_nil fuel h freed : clear_loop fuel [] h freed = Some (h, freed).
Proof. by destruct fuel. Qed.

Lemma all_Some {A} (l : list (option A)) :
  (∀ y, y ∈ l → is_Some y) → ∃ xs, l = Some <$> xs.
Proof.
  induction l as [|y l IH]; intros H; [by exists []|].
  destruct (H y) as [x ->]; [left|].
  destruct IH as [xs ->]; [intros z Hz; apply H; by right|].
  by exists (x :: xs).
Qed.

Lemma NoDup_bounded (l : list nat) (N : nat) :
  NoDup l → (∀ x, x ∈ l → x < N) → length l ≤ N.
Proof.
  intros ND B. assert (l ⊆+ seq 0 N) as ?%submseteq_length;
    [|by rewrite length_seq in *].
  apply NoDup_submseteq; [done|]. intros x Hx%B. apply elem_of_seq. lia.
Qed.

Section clear_spec.
Context (h0 : list Node) (paths : list (list ascii)).
Context (TI : trie_inv h0 paths).

(** The nodes found so far are the root and the children of the deleted
    nodes. *)
Let found (freed ns : list nat) : Prop :=
  ∀ g, g ∈ freed ++ ns ↔ g = root ∨ ∃ p, p ∈ freed ∧ Some g ∈ kids h0 p.

Lemma kid_path p g :
  Some g ∈ kids h0 p →
  ∃ t c, paths !! p = Some t ∧ paths !! g = Some (t ++ [c]).
Proof.
  intros Hg. assert (is_Some (h0 !! p)) as [nd Ln].
  { unfold kids in Hg. destruct (h0 !! p); [done|by apply elem_of_nil in Hg]. }
  destruct (node_path _ _ TI _ _ Ln) as [t Lp].
  destruct (kids_elem _ _ TI _ _ _ Lp Hg) as (c & g' & [= <-] & Lg).
  by exists t, c.
Qed.

Lemma kids_node_NoDup n : NoDup (kids h0 n).
Proof.
  unfold kids. destruct (h0 !! n) as [nd|] eqn:Ln; [|constructor].
  destruct (node_path _ _ TI _ _ Ln) as [t L].
  apply NoDup_fmap_2_strong; [|apply NoDup_map_to_list].
  intros [c1 q1] [c2 q2] H1%elem_of_map_to_list H2%elem_of_map_to_list E.
  cbn in E. subst q2.
  destruct (edge_child _ _ TI _ _ _ _ _ L Ln H1) as (g1 & -> & G1).
  destruct (edge_child _ _ TI _ _ _ _ _ L Ln H2) as (g2 & [= <-] & G2).
  rewrite G1 in G2. injection G2 as [_ ->]%app_inj_tail. done.
Qed.

Lemma found_bound freed ns g : found freed ns → g ∈ freed ++ ns → g < length h0.
Proof.
  intros F [->|(p & _ & (t & c & _ & Lg)%kid_path)]%F;
    rewrite <- (ti_len _ _ TI); eapply lookup_lt_Some; [apply TI|done].
Qed.

Lemma found_all freed : found freed [] → ∀ u g, paths !! g = Some u → g ∈ freed.
Proof.
  intros F. induction u as [|c u IH] using rev_ind; intros g Lg.
  - rewrite <- (app_nil_r freed). apply F. left.
    eapply path_unique; eauto using ti_root.
  - destruct (ti_parent _ _ TI _ _ _ Lg) as (p & pd & _ & Lp & Lpd & Lc & _).
    rewrite <- (app_nil_r freed). apply F. right. exists p.
    split; [by apply IH|]. unfold kids. rewrite Lpd.
    apply list_elem_of_fmap. exists (c, Some g). split; [done|].
    by apply elem_of_map_to_list.
Qed.

Lemma clear_loop_spec : ∀ fuel ns freed h,
  same_on children h0 h → NoDup (freed ++ ns) → found freed ns →
  length h0 ≤ length freed + fuel →
  ∃ h' freed',
    clear_loop fuel (Some <$> ns) h freed = Some (h', freed') ∧
    NoDup freed' ∧ (∀ g, g ∈ freed' ↔ g < length h0).
Proof.
  induction fuel as [|fuel IH]; intros ns freed h Sc ND F Hf;
    destruct ns as [|n ns].
  1, 3: exists h, freed; rewrite clear_loop_nil; rewrite app_nil_r in ND;
    split; [done|]; split; [done|]; intros g; split.
  1, 3: intros Hg; apply (found_bound freed []); [done|by rewrite app_nil_r].
  1, 2: intros Hg; rewrite <- (ti_len _ _ TI) in Hg;
    destruct (lookup_lt_is_Some_2 _ _ Hg) as [u L]; by eapply found_all.
  - exfalso. pose proof (NoDup_bounded _ (length h0) ND) as B.
    rewrite length_app in B. cbn in B.
    assert (length freed + S (length ns) ≤ length h0); [|lia].
    apply B. intros x Hx. by eapply found_bound.
  - assert (n ∉ freed) as Fresh.
    { apply NoDup_app in ND as (_ & D & _). intros Hn. apply (D n Hn). left. }
    assert (n < length h0) as Hn.
    { apply (found_bound freed (n :: ns)); [done|].
      apply elem_of_app. right. left. }
    destruct (lookup_lt_is_Some_2 _ _ Hn) as [nd0 L0].
    destruct (same_on_lookup _ _ _ _ _ Sc L0) as (nd & L & Ec).
    destruct (all_Some (kids h0 n)) as [gs Egs].
    { intros [g|] Hy; [done|]. unfold kids in Hy. rewrite L0 in Hy.
      apply list_elem_of_fmap in Hy as ([c q] & Eq & Hc%elem_of_map_to_list).
      cbn in Eq. subst q. destruct (node_path _ _ TI _ _ L0) as [t Lt].
      by destruct (edge_child _ _ TI _ _ _ _ _ Lt L0 Hc) as (? & ? & _). }
    assert (∀ g, g ∈ gs ↔ Some g ∈ kids h0 n) as Hgs.
    { intros g. rewrite Egs. split.
      - intros Hg. apply list_elem_of_fmap. by exists g.
      - by intros (? & [= <-] & ?)%list_elem_of_fmap. }
    set (h3 := <[n := set_failureLink nullptr
                    (set_outputLink nullptr (set_parent nullptr nd))]> h).
    assert (clear_loop (S fuel) (Some <$> n :: ns) h freed
            = clear_loop fuel (Some <$> ns ++ gs) h3 (n :: freed)) as Step.
    { cbn [clear_loop fmap list_fmap]. cbn [mbind option_bind].
      rewrite decide_False by done. rewrite L. cbn [mbind option_bind].
      rewrite (modify_Some _ _ _ _ L). cbn [mbind option_bind].
      rewrite (modify_Some _ _ _ (set_parent nullptr nd)), list_insert_insert_eq
        by (apply list_lookup_insert_eq; by eapply lookup_lt_Some).
      cbn [mbind option_bind].
      rewrite (modify_Some _ _ _ (set_outputLink nullptr (set_parent nullptr nd))),
        list_insert_insert_eq
        by (apply list_lookup_insert_eq; by eapply lookup_lt_Some).
      cbn [mbind option_bind]. rewrite Ec, fmap_app, <- Egs.
      unfold kids. rewrite L0. done. }
    rewrite Step. apply IH.
    + eapply same_on_trans; [done|].
      by apply (same_on_insert children h n
                  (λ x, set_failureLink nullptr
                          (set_outputLink nullptr (set_parent nullptr x))) nd).
    + assert ((n :: freed) ++ ns ++ gs ≡ₚ (freed ++ n :: ns) ++ gs) as ->.
      { rewrite <- app_assoc. cbn. by rewrite Permutation_middle. }
      apply NoDup_app. split; [done|]. split.
      * intros x [->|(p & Hp & (t & c & Lp & Lx)%kid_path)]%F
               (t' & c' & Ln & Lx')%Hgs%kid_path.
        -- rewrite (ti_root _ _ TI) in Lx'. injection Lx' as Lx'.
           by destruct t'.
        -- rewrite Lx in Lx'. injection Lx' as [-> _]%app_inj_tail.
           apply Fresh. by rewrite (path_unique _ _ TI _ _ _ Ln Lp).
      * apply (NoDup_fmap_1 Some). rewrite <- Egs. apply kids_node_NoDup.
    + intros g.
      assert (g ∈ (n :: freed) ++ ns ++ gs ↔ g ∈ freed ++ n :: ns ∨ g ∈ gs)
        as ->.
      { rewrite !elem_of_app, !elem_of_cons. tauto. }
      rewrite (F g), Hgs. split.
      * intros [[->|(p & Hp & Hg)]|Hg]; [by left|right; exists p|right; exists n];
          (split; [|done]); [by right|left].
      * intros [->|(p & [->|Hp]%elem_of_cons & Hg)];
          [left; by left|by right|left; right; by exists p].
    + cbn. lia.
Qed.

Lemma clear_spec :
  ∃ h' freed, clear h0 = Some (h', freed) ∧
              NoDup freed ∧ (∀ g, g ∈ freed ↔ g < length h0).
Proof.
  apply (clear_loop_spec (length h0) [root] [] h0).
  - done.
  - apply NoDup_singleton.
  - intros g. cbn. rewrite list_elem_of_singleton. split; [by left|].
    intros [->|(p & ?%elem_of_nil & _)]; done.
  - cbn. lia.
Qed.
End clear_spec.

(** X12.  The destructor, run after the constructor and a scan, returns
    and deletes every node of the arena exactly once: it never reads
    through a null pointer or a deleted node, deletes no node twice and
    leaves none behind. *)
Theorem X12_destructor_frees_every_node_once (words : list (list ascii))
    (text : list ascii) :
  ∃ h out h' hc freed,
    Aho_Corasick words = Some h ∧ findPatterns text h = Some (out, h') ∧
    clear h' = Some (hc, freed) ∧
    NoDup freed ∧ (∀ n, n ∈ freed ↔ n < length h').
Proof.
  destruct (Aho_Corasick_spec words) as (h & paths & E & AU).
  destruct (findPatterns_spec _ _ _ AU text) as (out & Ef & _).
  destruct (clear_spec h paths (sh_trie _ _ _ (au_shaped _ _ _ AU)))
    as (hc & freed & Ec & R).
  by exists h, out, h, hc, freed.
Qed.

End Aho_Corasick.
